(** * doctl: the snapshot commands (commands/snapshots.go)

    A shallow embedding of [RunSnapshotList], [RunSnapshotGet] and
    [RunSnapshotDelete].  The commands talk to three collaborators: the
    configuration (flag lookup), the snapshots service (remote API) and the
    terminal (confirmation prompt, display).  The remote side and the
    terminal are modelled as an explicit world [W] threaded through every
    call; each interaction is also appended to a trace, so that statements
    such as "no request is performed" can be read off the trace. *)

From Stdlib Require Import String List Bool Arith Lia Permutation.
Import ListNotations.
Open Scope string_scope.
Open Scope list_scope.

(** ** Errors and results *)

(** Go [error] values that the commands can return.  [ExternalErr] stands
    for any error value built outside the package (service, configuration,
    terminal); the commands never inspect it. *)
Inductive error : Type :=
| MissingArgsErr (ns : string)                    (* doctl.NewMissingArgsErr(ns) *)
| errOperationAborted                             (* commands.errOperationAborted *)
| Errorf (format : string) (args : list string)   (* fmt.Errorf(format, args...) *)
| ExternalErr (msg : string).

(** The message of a [MissingArgsErr], as the integration test
    "missing required arguments" of droplet create expects it. *)
Definition MissingArgsErr_Error (ns : string) : string :=
  ("(" ++ ns ++ ") command is missing required arguments")%string.

(** A Go pair [(value, err)] with the convention that the value is only
    meaningful when [err == nil]. *)
Inductive result (A : Type) : Type :=
| Ok (a : A)
| Err (e : error).
Arguments Ok {A} a.
Arguments Err {A} e.

Definition failure {A : Type} (r : result A) : option error :=
  match r with
  | Ok _ => None
  | Err e => Some e
  end.

Definition of_error (e : option error) : result unit :=
  match e with
  | None => Ok tt
  | Some e => Err e
  end.

(** ** Data *)

(** The fields of [do.Snapshot] that the commands read. *)
Record Snapshot : Type := mkSnapshot {
  ID : string;
  Name : string;
  Regions : list string
}.

(** ** Collaborators *)

(** [doctl.Config], restricted to the lookups used here. *)
Record Config : Type := mkConfig {
  GetString : string -> string -> result string;
  GetBool : string -> string -> result bool
}.

(** [do.SnapshotsService] over a world [W]. *)
Record SnapshotsService (W : Type) : Type := mkSnapshotsService {
  List : W -> result (list Snapshot) * W;
  ListVolume : W -> result (list Snapshot) * W;
  ListDroplet : W -> result (list Snapshot) * W;
  ListVolumeSnapshotByRegion : string -> W -> result (list Snapshot) * W;
  Get : string -> W -> result Snapshot * W;
  Delete : string -> W -> option error * W
}.
Arguments List {W} _ _.
Arguments ListVolume {W} _ _.
Arguments ListDroplet {W} _ _.
Arguments ListVolumeSnapshotByRegion {W} _ _ _.
Arguments Get {W} _ _ _.
Arguments Delete {W} _ _ _.

(** [CmdConfig]: namespace, positional arguments, configuration, the
    snapshots service and the display function (here always applied to a
    [displayers.Snapshot], so it takes the snapshot list). *)
Record CmdConfig (W : Type) : Type := mkCmdConfig {
  NS : string;
  Doit : Config;
  Args : list string;
  Snapshots : SnapshotsService W;
  Display : list Snapshot -> W -> option error * W
}.
Arguments NS {W} _.
Arguments Doit {W} _.
Arguments Args {W} _.
Arguments Snapshots {W} _.
Arguments Display {W} _ _ _.

(** ** Traces *)

Inductive call : Type :=
| CallList
| CallListVolume
| CallListDroplet
| CallListVolumeSnapshotByRegion (region : string)
| CallGet (id : string)
| CallDelete (id : string).

Inductive event : Type :=
| ApiCall (c : call) (failed : option error)
| Prompt (resource : string) (count : nat) (answer : option error)
| Displayed (snapshots : list Snapshot) (failed : option error).

(** The IDs of the mutating API calls (the deletions) of a trace. *)
Fixpoint mutations (t : list event) : list string :=
  match t with
  | [] => []
  | ApiCall (CallDelete id) _ :: t' => id :: mutations t'
  | _ :: t' => mutations t'
  end.

(** The API calls of a trace. *)
Fixpoint api_calls (t : list event) : list call :=
  match t with
  | [] => []
  | ApiCall c _ :: t' => c :: api_calls t'
  | _ :: t' => api_calls t'
  end.

(** ** The command monad: world passing, early return on error, trace *)

Definition Cmd (W A : Type) : Type := W -> result A * W * list event.

Definition ret {W A : Type} (a : A) : Cmd W A :=
  fun w => (Ok a, w, []).

Definition bind {W A B : Type} (m : Cmd W A) (f : A -> Cmd W B) : Cmd W B :=
  fun w =>
    match m w with
    | (Ok a, w1, t1) =>
        match f a w1 with
        | (r, w2, t2) => (r, w2, t1 ++ t2)
        end
    | (Err e, w1, t1) => (Err e, w1, t1)
    end.

Definition lift {W A : Type} (r : result A) : Cmd W A :=
  fun w => (r, w, []).

Declare Scope cmd_scope.
Delimit Scope cmd_scope with cmd.
Notation "x <- m ;; k" := (bind m (fun x => k))
  (at level 61, m at next level, right associativity) : cmd_scope.
Notation "m ;;; k" := (bind m (fun _ => k))
  (at level 61, right associativity) : cmd_scope.
Open Scope cmd_scope.

(** What a finished command hands back to its caller. *)
Definition returned {W A : Type} (o : result A * W * list event) : option error :=
  failure (fst (fst o)).

Definition world_of {W A : Type} (o : result A * W * list event) : W :=
  snd (fst o).

Definition trace_of {W A : Type} (o : result A * W * list event) : list event :=
  snd o.

(** A service call, recorded with its outcome. *)
Definition api {W A : Type} (c : call) (op : W -> result A * W) : Cmd W A :=
  fun w =>
    match op w with
    | (r, w1) => (r, w1, [ApiCall c (failure r)])
    end.

Definition api_delete {W : Type} (ss : SnapshotsService W) (id : string) : Cmd W unit :=
  api (CallDelete id) (fun w => match Delete ss id w with (e, w1) => (of_error e, w1) end).

Definition display {W : Type} (c : CmdConfig W) (snapshots : list Snapshot) : Cmd W unit :=
  fun w =>
    match Display c snapshots w with
    | (e, w1) => (of_error e, w1, [Displayed snapshots e])
    end.

(** ** The package-level collaborators

    What the commands reach through the package rather than through their
    [CmdConfig]: the glob library (github.com/gobwas/glob: compiled patterns,
    [glob.Compile] and [Match]), the confirmation prompt
    [AskForConfirmDelete(resourceType, count)], which answers [nil] when the
    user agrees, and the flag names [doctl.ArgResourceType],
    [doctl.ArgRegionSlug] and [doctl.ArgForce]. *)
Class Env (W : Type) : Type := mkEnv {
  Glob : Type;
  Compile : string -> result Glob;
  Match : Glob -> string -> bool;
  AskForConfirmDelete : string -> nat -> W -> option error * W;
  ArgResourceType : string;
  ArgRegionSlug : string;
  ArgForce : string
}.

(** ** The commands *)

Section Commands.

Context {W : Type} {E : Env W}.

Definition confirm (resource : string) (count : nat) : Cmd W (option error) :=
  fun w =>
    match AskForConfirmDelete resource count w with
    | (e, w1) => (Ok e, w1, [Prompt resource count e])
    end.

(** *** RunSnapshotList *)

(** Lines 84-92: compile every positional argument, in order. *)
Fixpoint compile_loop (args : list string) (matches : list Glob) : result (list Glob) :=
  match args with
  | [] => Ok matches
  | globStr :: rest =>
      match Compile globStr with
      | Err _ => Err (Errorf "unknown glob %q" [globStr])
      | Ok g => compile_loop rest (matches ++ [g])
      end
  end.

(** Lines 97-118: the switch on the resource type. *)
Definition fetch (ss : SnapshotsService W) (restype region : string) : Cmd W (list Snapshot) :=
  if restype =? "droplet" then
    api CallListDroplet (ListDroplet ss)
  else if restype =? "volume" then
    if negb (region =? "") then
      api (CallListVolumeSnapshotByRegion region) (ListVolumeSnapshotByRegion ss region)
    else
      api CallListVolume (ListVolume ss)
  else
    api CallList (List ss).

(** Lines 125-132: the loop over the compiled globs. *)
Fixpoint match_loop (matches : list Glob) (snapshot : Snapshot) (skip : bool) : bool :=
  match matches with
  | [] => skip
  | m :: rest =>
      let skip1 := if Match m (ID snapshot) then false else skip in
      let skip2 := if Match m (Name snapshot) then false else skip1 in
      match_loop rest snapshot skip2
  end.

(** Lines 136-143: the loop over the regions of a snapshot, with its break. *)
Fixpoint region_loop (region : string) (regions : list string) (skip : bool) : bool :=
  match regions with
  | [] => skip
  | snapshotRegion :: rest =>
      if negb (region =? snapshotRegion) then region_loop region rest true
      else false
  end.

(** Lines 121-145: the value of [skip] when line 147 tests it. *)
Definition skip_snapshot (matches : list Glob) (region : string) (snapshot : Snapshot) : bool :=
  let skip :=
    if Nat.eqb (length matches) 0 then false
    else match_loop matches snapshot true in
  if negb skip && negb (region =? "") then region_loop region (Regions snapshot) skip
  else skip.

(** Lines 120-150: the loop over the fetched list (the variable [list] of
    the source is called [fetched] here). *)
Fixpoint snapshots_loop (matches : list Glob) (region : string)
  (fetched matchedList : list Snapshot) : list Snapshot :=
  match fetched with
  | [] => matchedList
  | snapshot :: rest =>
      if negb (skip_snapshot matches region snapshot)
      then snapshots_loop matches region rest (matchedList ++ [snapshot])
      else snapshots_loop matches region rest matchedList
  end.

Definition RunSnapshotList (c : CmdConfig W) : Cmd W unit :=
  let ss := Snapshots c in
  restype <- lift (GetString (Doit c) (NS c) ArgResourceType) ;;
  region <- lift (GetString (Doit c) (NS c) ArgRegionSlug) ;;
  matches <- lift (compile_loop (Args c) []) ;;
  fetched <- fetch ss restype region ;;
  let matchedList := snapshots_loop matches region fetched [] in
  display c matchedList.

(** *** RunSnapshotGet *)

(** Lines 167-173. *)
Fixpoint get_loop (ss : SnapshotsService W) (ids : list string)
  (matchedList : list Snapshot) : Cmd W (list Snapshot) :=
  match ids with
  | [] => ret matchedList
  | id :: rest =>
      s <- api (CallGet id) (Get ss id) ;;
      get_loop ss rest (matchedList ++ [s])
  end.

Definition RunSnapshotGet (c : CmdConfig W) : Cmd W unit :=
  if Nat.eqb (length (Args c)) 0 then lift (Err (MissingArgsErr (NS c)))
  else
    let ss := Snapshots c in
    let ids := Args c in
    matchedList <- get_loop ss ids [] ;;
    display c matchedList.

(** *** RunSnapshotDelete *)

(** Lines 193-198. *)
Fixpoint delete_loop (ss : SnapshotsService W) (ids : list string) : Cmd W unit :=
  match ids with
  | [] => ret tt
  | id :: rest => api_delete ss id ;;; delete_loop ss rest
  end.

Definition RunSnapshotDelete (c : CmdConfig W) : Cmd W unit :=
  if Nat.eqb (length (Args c)) 0 then lift (Err (MissingArgsErr (NS c)))
  else
    force <- lift (GetBool (Doit c) (NS c) ArgForce) ;;
    let ss := Snapshots c in
    let ids := Args c in
    (* force || AskForConfirmDelete("snapshot", len(ids)) == nil *)
    proceed <- (if force : bool then ret true
                else answer <- confirm "snapshot" (length ids) ;;
                     ret (match answer with None => true | Some _ => false end)) ;;
    if proceed : bool then delete_loop ss ids
    else lift (Err errOperationAborted).

End Commands.

(** ** Specification vocabulary *)

Section Vocabulary.

Context {W : Type} {E : Env W}.

(** The glob filter in the words of the documentation: a snapshot is
    selected when no glob was given, or when some glob matches its ID or
    its name. *)
Definition glob_selects (globs : list Glob) (s : Snapshot) : bool :=
  match globs with
  | [] => true
  | _ :: _ => existsb (fun m => Match m (ID s) || Match m (Name s)) globs
  end.

(** The region filter: a snapshot is available in [region] when it lists
    no region at all or lists [region]. *)
Definition region_allows (region : string) (s : Snapshot) : bool :=
  match Regions s with
  | [] => true
  | _ :: _ => existsb (String.eqb region) (Regions s)
  end.

(** [succeed_gets ss ids w l w1]: starting in [w], the [Get] calls for
    [ids], made in order, all succeed, answer [l] (one snapshot per ID, in
    order) and leave the world in [w1]. *)
Inductive succeed_gets (ss : SnapshotsService W) :
  list string -> W -> list Snapshot -> W -> Prop :=
| succeed_gets_nil (w : W) : succeed_gets ss [] w [] w
| succeed_gets_cons (id : string) (ids : list string) (w w1 w2 : W)
    (s : Snapshot) (l : list Snapshot) :
    Get ss id w = (Ok s, w1) ->
    succeed_gets ss ids w1 l w2 ->
    succeed_gets ss (id :: ids) w (s :: l) w2.

(** [succeed_deletes ss ids w w1]: starting in [w], the [Delete] calls for
    [ids], made in order, all succeed and leave the world in [w1]. *)
Inductive succeed_deletes (ss : SnapshotsService W) :
  list string -> W -> W -> Prop :=
| succeed_deletes_nil (w : W) : succeed_deletes ss [] w w
| succeed_deletes_cons (id : string) (ids : list string) (w w1 w2 : W) :
    Delete ss id w = (None, w1) ->
    succeed_deletes ss ids w1 w2 ->
    succeed_deletes ss (id :: ids) w w2.

(** [proceeds c w w1 t]: the deletion of [Args c] goes ahead from world
    [w], either because the force flag is set or because the user agreed;
    [w1] and [t] are the world and the trace at the start of the loop. *)
Inductive proceeds (c : CmdConfig W) (w : W) : W -> list event -> Prop :=
| proceeds_force :
    GetBool (Doit c) (NS c) ArgForce = Ok true ->
    proceeds c w w []
| proceeds_confirm (w1 : W) :
    GetBool (Doit c) (NS c) ArgForce = Ok false ->
    AskForConfirmDelete "snapshot" (length (Args c)) w = (None, w1) ->
    proceeds c w w1 [Prompt "snapshot" (length (Args c)) None].

(** The trace of successful calls for a list of IDs. *)
Definition got (ids : list string) : list event :=
  map (fun id => ApiCall (CallGet id) None) ids.

Definition deleted (ids : list string) : list event :=
  map (fun id => ApiCall (CallDelete id) None) ids.

(** An outcome passes API errors through: whenever its trace holds a failed
    API call, the outcome is that call's error. *)
Definition passthrough {A : Type} (o : result A * W * list event) : Prop :=
  forall (k : call) (e : error),
    In (ApiCall k (Some e)) (trace_of o) -> fst (fst o) = Err e.

(** What [RunSnapshotList] makes of the answer of its list call [k], for
    the compiled globs and the region flag: an error is returned as it is;
    a list is filtered and displayed, and the display decides the outcome. *)
Definition listed (c : CmdConfig W) (globs : list Glob) (region : string)
  (k : call) (answer : result (list Snapshot) * W) : result unit * W * list event :=
  match answer with
  | (Err e, w1) => (Err e, w1, [ApiCall k (Some e)])
  | (Ok l, w1) =>
      let shown :=
        filter (fun s => glob_selects globs s
                         && ((region =? "")%string || region_allows region s)) l in
      (of_error (fst (Display c shown w1)), snd (Display c shown w1),
       [ApiCall k None; Displayed shown (fst (Display c shown w1))])
  end.

End Vocabulary.

(** ** The completion poller *)

Module Poller.

Inductive poll_event (State : Type) : Type :=
| Fetched (s : State)
| Slept (interval : nat).
Arguments Fetched {State} s.
Arguments Slept {State} interval.

Inductive poll_result (State : Type) : Type :=
| Final (s : State)
| Timeout.
Arguments Final {State} s.
Arguments Timeout {State}.

Section Poll.

Context {W State : Type}.

(** The accessor: fetches the current state of a resource. *)
Variable fetch_state : string -> W -> State * W.

(** The hardcoded phase predicate: is the fetched state terminal? *)
Variable terminal : State -> bool.

(** The fixed polling interval. *)
Variable interval : nat.

(** Modelled from the spec: the completion poller, whose code is not among
    the sources (only tests that drive it are).  "Repeatedly fetch status at
    a fixed interval until a terminal phase is observed or a maximum attempt
    count is exceeded, then return the final fetched state or a timeout
    error."  [attempts] is the number of attempts still allowed. *)
Fixpoint poll (attempts : nat) (id : string) (w : W)
  : poll_result State * W * list (poll_event State) :=
  match attempts with
  | 0 => (Timeout, w, [])
  | S n =>
      match fetch_state id w with
      | (s, w1) =>
          if terminal s then (Final s, w1, [Fetched s])
          else
            match poll n id w1 with
            | (r, w2, t) => (r, w2, Fetched s :: Slept interval :: t)
            end
      end
  end.

(** The states fetched along a trace, and the pauses taken. *)
Fixpoint fetches (t : list (poll_event State)) : list State :=
  match t with
  | [] => []
  | Fetched s :: t' => s :: fetches t'
  | Slept _ :: t' => fetches t'
  end.

Fixpoint pauses (t : list (poll_event State)) : list nat :=
  match t with
  | [] => []
  | Fetched _ :: t' => pauses t'
  | Slept i :: t' => i :: pauses t'
  end.

(** The answers of the accessor to [n] successive requests for [id],
    starting in world [w], and the world after them. *)
Fixpoint observe (n : nat) (id : string) (w : W) : list State * W :=
  match n with
  | 0 => ([], w)
  | S n' =>
      match fetch_state id w with
      | (s, w1) =>
          match observe n' id w1 with
          | (l, w2) => (s :: l, w2)
          end
      end
  end.

(** Fetching each state of [l] and pausing for the interval after it. *)
Definition waited (l : list State) : list (poll_event State) :=
  flat_map (fun s => [Fetched s; Slept interval]) l.

End Poll.

End Poller.

(** ** An in-memory double of the collaborators

    Used to run the commands on concrete inputs.  The world is the set of
    snapshots held by the account together with the lines the user will
    type at the prompt. *)

Module Mock.

Record World : Type := mkWorld {
  store : list Snapshot;
  stdin : list string
}.

Definition has_id (id : string) (s : Snapshot) : bool := (ID s =? id)%string.

Definition not_found : error := ExternalErr "404 snapshot not found".

Definition list_all (w : World) : result (list Snapshot) * World :=
  (Ok (store w), w).

Definition list_region (region : string) (w : World) : result (list Snapshot) * World :=
  (Ok (filter (fun s => existsb (String.eqb region) (Regions s)) (store w)), w).

Definition get (id : string) (w : World) : result Snapshot * World :=
  match find (has_id id) (store w) with
  | Some s => (Ok s, w)
  | None => (Err not_found, w)
  end.

Definition delete (id : string) (w : World) : option error * World :=
  if existsb (has_id id) (store w)
  then (None, mkWorld (filter (fun s => negb (has_id id s)) (store w)) (stdin w))
  else (Some not_found, w).

Definition service : SnapshotsService World :=
  mkSnapshotsService World list_all list_all list_all list_region get delete.

Definition ask (resource : string) (count : nat) (w : World) : option error * World :=
  match stdin w with
  | [] => (Some (ExternalErr "EOF"), w)
  | line :: rest =>
      (if (line =? "y")%string then None else Some (ExternalErr "invalid response"),
       mkWorld (store w) rest)
  end.

(** A glob double: ["["] does not compile, ["*"] matches everything and
    any other pattern matches itself only. *)
Definition compile (p : string) : result string :=
  if (p =? "[")%string then Err (ExternalErr "unexpected end of input") else Ok p.

Definition matches (g : string) (s : string) : bool :=
  (g =? "*")%string || (g =? s)%string.

#[global] Instance env : Env World :=
  mkEnv World string compile matches ask "resource" "region" "force".

(** A configuration double: flags given as key/value pairs; an absent
    string flag reads as empty, an absent boolean flag as false. *)
Fixpoint lookup (key : string) (flags : list (string * string)) : string :=
  match flags with
  | [] => ""
  | (k, v) :: rest => if (k =? key)%string then v else lookup key rest
  end.

Definition config (flags : list (string * string)) : Config :=
  mkConfig (fun _ key => Ok (lookup key flags))
           (fun _ key => Ok (lookup key flags =? "true")%string).

Definition show (l : list Snapshot) (w : World) : option error * World := (None, w).

Definition cmd (flags : list (string * string)) (args : list string) : CmdConfig World :=
  mkCmdConfig World "snapshot" (config flags) args service show.

Definition s1 : Snapshot := mkSnapshot "1" "web-backup" ["nyc1"; "sfo2"].
Definition s2 : Snapshot := mkSnapshot "2" "db-backup" ["ams3"].
Definition s3 : Snapshot := mkSnapshot "3" "scratch" [].

Definition account : World := mkWorld [s1; s2; s3] ["n"].

(** The service during an outage: every call fails. *)
Definition unavailable : error := ExternalErr "503 service unavailable".

Definition down : SnapshotsService World :=
  mkSnapshotsService World
    (fun w => (Err unavailable, w)) (fun w => (Err unavailable, w))
    (fun w => (Err unavailable, w)) (fun _ w => (Err unavailable, w))
    (fun _ w => (Err unavailable, w)) (fun _ w => (Some unavailable, w)).

Definition cmd_down (flags : list (string * string)) (args : list string)
  : CmdConfig World :=
  mkCmdConfig World "snapshot" (config flags) args down show.

End Mock.

(** ** A double that tells droplet snapshots from volume snapshots

    The account holds the two kinds apart, so that the four list methods
    answer differently. *)

Module Split.

Record World : Type := mkWorld {
  droplet_snapshots : list Snapshot;
  volume_snapshots : list Snapshot
}.

Definition everything (w : World) : list Snapshot :=
  droplet_snapshots w ++ volume_snapshots w.

Definition service : SnapshotsService World :=
  mkSnapshotsService World
    (fun w => (Ok (everything w), w))
    (fun w => (Ok (volume_snapshots w), w))
    (fun w => (Ok (droplet_snapshots w), w))
    (fun region w =>
       (Ok (filter (fun s => existsb (String.eqb region) (Regions s))
              (volume_snapshots w)), w))
    (fun id w =>
       match find (Mock.has_id id) (everything w) with
       | Some s => (Ok s, w)
       | None => (Err Mock.not_found, w)
       end)
    (fun id w =>
       if existsb (Mock.has_id id) (everything w)
       then (None,
             mkWorld (filter (fun s => negb (Mock.has_id id s)) (droplet_snapshots w))
                     (filter (fun s => negb (Mock.has_id id s)) (volume_snapshots w)))
       else (Some Mock.not_found, w)).

(** Nobody sits at the terminal: every prompt is declined. *)
#[global] Instance env : Env World :=
  mkEnv World string Mock.compile Mock.matches
    (fun _ _ w => (Some (ExternalErr "EOF"), w)) "resource" "region" "force".

Definition cmd (flags : list (string * string)) (args : list string) : CmdConfig World :=
  mkCmdConfig World "snapshot" (Mock.config flags) args service (fun _ w => (None, w)).

Definition account : World := mkWorld [Mock.s1] [Mock.s2; Mock.s3].

End Split.

(** ** The fake API server of the droplet-create integration test

    integration/droplet_create_test.go, lines 37-107: the handler that the
    suite installs before each case.  It answers by path, guards two paths
    by bearer token and method, and captures the bodies it receives in the
    suite variables [reqBody] and [assignResourcesReqBody]. *)

Module DropletCreateServer.

(** The canned response bodies (constants of the test file), by name. *)
Inductive payload : Type :=
| dropletCreateResponse
| dropletCreateWaitResponse
| actionCompletedResponse
| assignResourcesResponse
| getProjectResponse.

(** What the handler does to its [http.ResponseWriter]. *)
Inductive write : Type :=
| WriteHeader (status : nat)
| Write (p : payload).

Definition StatusOK : nat := 200.
Definition StatusUnauthorized : nat := 401.
Definition StatusMethodNotAllowed : nat := 405.
Definition MethodPost : string := "POST".

(** The parts of [*http.Request] that the handler reads: [URL.Path],
    [Header.Get("Authorization")], [Method], and what [io.ReadAll(req.Body)]
    gives (the bytes read and the error, if any). *)
Record Request : Type := mkRequest {
  Path : string;
  Authorization : string;
  Method : string;
  Body : string * option error
}.

(** The suite variables written by the handler. *)
Record Captured : Type := mkCaptured {
  reqBody : string;
  assignResourcesReqBody : string
}.

Section Handler.

(** [json.Unmarshal] into a [dropletRequest], read at its [Name] field, and
    into an [assignResourcesRequest], read at its [Resources] field. *)
Variable unmarshalDropletRequest : string -> result string.
Variable unmarshalAssignResources : string -> result (list string).

(** The handler: the writes made, the suite variables afterwards, and
    whether the test was failed ([expect.*] not holding, or [t.Fatal]),
    which ends the handler on the spot. *)
Definition handler (req : Request) (cap : Captured) : list write * Captured * bool :=
  if (Path req =? "/v2/droplets")%string then
    if negb (Authorization req =? "Bearer some-magic-token")%string then
      ([WriteHeader StatusUnauthorized], cap, false)
    else if negb (Method req =? MethodPost)%string then
      ([WriteHeader StatusMethodNotAllowed], cap, false)
    else
      let cap1 := mkCaptured (fst (Body req)) (assignResourcesReqBody cap) in
      match snd (Body req) with
      | Some _ => ([], cap1, true)
      | None =>
          match unmarshalDropletRequest (fst (Body req)) with
          | Err _ => ([], cap1, true)
          | Ok name =>
              if (name =? "waiting-on-name")%string
              then ([Write dropletCreateWaitResponse], cap1, false)
              else ([Write dropletCreateResponse], cap1, false)
          end
      end
  else if (Path req =? "/poll-for-droplet")%string then
    ([Write actionCompletedResponse], cap, false)
  else if (Path req =? "/v2/droplets/777")%string then
    ([Write dropletCreateResponse], cap, false)
  else if (Path req =? "/v2/projects/00000000-0000-4000-8000-000000000000")%string then
    ([WriteHeader StatusOK; Write getProjectResponse], cap, false)
  else if (Path req
           =? "/v2/projects/00000000-0000-4000-8000-000000000000/resources")%string then
    if negb (Authorization req =? "Bearer some-magic-token")%string then
      ([WriteHeader StatusUnauthorized], cap, false)
    else if negb (Method req =? MethodPost)%string then
      ([WriteHeader StatusMethodNotAllowed], cap, false)
    else
      let cap1 := mkCaptured (reqBody cap) (fst (Body req)) in
      match snd (Body req) with
      | Some _ => ([], cap1, true)
      | None =>
          match unmarshalAssignResources (fst (Body req)) with
          | Err _ => ([], cap1, true)
          | Ok resources =>
              match resources with
              | [] => ([], cap1, true)
              | first :: _ =>
                  if (first =? "do:droplet:1111")%string
                  then ([Write assignResourcesResponse], cap1, false)
                  else ([], cap1, true)
              end
          end
      end
  else
    ([], cap, true).

(** The paths that the handler guards by token and method. *)
Definition guarded (path : string) : bool :=
  (path =? "/v2/droplets")%string
  || (path =? "/v2/projects/00000000-0000-4000-8000-000000000000/resources")%string.

End Handler.

End DropletCreateServer.

(** * Properties *)

(** ** Sample runs against the double *)

Example list_with_region :
  trace_of (RunSnapshotList (Mock.cmd [("region", "nyc1")] []) Mock.account)
  = [ApiCall CallList None; Displayed [Mock.s1; Mock.s3] None].
Proof. reflexivity. Qed.

Example get_stops_at_unknown_id :
  RunSnapshotGet (Mock.cmd [] ["2"; "9"; "1"]) Mock.account
  = (Err Mock.not_found, Mock.account,
     [ApiCall (CallGet "2") None; ApiCall (CallGet "9") (Some Mock.not_found)]).
Proof. reflexivity. Qed.

Example delete_declined :
  returned (RunSnapshotDelete (Mock.cmd [] ["2"; "1"]) Mock.account)
  = Some errOperationAborted.
Proof. reflexivity. Qed.

Section Facts.

Context {W : Type} {E : Env W}.

(** ** The monad *)

Lemma bind_Ok {A B : Type} (m : Cmd W A) (f : A -> Cmd W B)
  (w w1 w2 : W) (a : A) (r : result B) (t1 t2 : list event) :
  m w = (Ok a, w1, t1) -> f a w1 = (r, w2, t2) ->
  bind m f w = (r, w2, t1 ++ t2).
Proof. intros Hm Hf. unfold bind. rewrite Hm, Hf. reflexivity. Qed.

Lemma bind_Err {A B : Type} (m : Cmd W A) (f : A -> Cmd W B)
  (w w1 : W) (e : error) (t1 : list event) :
  m w = (Err e, w1, t1) -> bind m f w = (Err e, w1, t1).
Proof. intros Hm. unfold bind. rewrite Hm. reflexivity. Qed.

Lemma bind_lift_Ok {A B : Type} (a : A) (f : A -> Cmd W B) (w : W) :
  bind (lift (Ok a)) f w = f a w.
Proof.
  unfold bind, lift. destruct (f a w) as [[r w2] t2]. reflexivity.
Qed.

Lemma bind_lift_Err {A B : Type} (e : error) (f : A -> Cmd W B) (w : W) :
  bind (lift (Err e)) f w = (Err e, w, []).
Proof. reflexivity. Qed.

Lemma bind_ret {A B : Type} (a : A) (f : A -> Cmd W B) (w : W) :
  bind (ret a) f w = f a w.
Proof. apply (bind_lift_Ok a f w). Qed.

Lemma length_eqb_0 {A : Type} (l : list A) :
  Nat.eqb (length l) 0 = match l with [] => true | _ :: _ => false end.
Proof. destruct l; reflexivity. Qed.

(** ** Compiling the globs *)

Lemma compile_loop_all (args : list string) :
  forall (globs acc : list Glob),
    map Compile args = map Ok globs ->
    compile_loop args acc = Ok (acc ++ globs).
Proof.
  induction args as [|a args IH]; intros globs acc H.
  - destruct globs; [|discriminate]. simpl. now rewrite app_nil_r.
  - destruct globs as [|g globs]; [discriminate|].
    simpl in H. injection H as Ha Hrest.
    simpl. rewrite Ha. rewrite (IH globs (acc ++ [g]) Hrest).
    now rewrite <- app_assoc.
Qed.

Lemma compile_loop_first_failure (pre : list string) :
  forall (globs acc : list Glob) (globStr : string) (post : list string) (e : error),
    map Compile pre = map Ok globs ->
    Compile globStr = Err e ->
    compile_loop (pre ++ globStr :: post) acc = Err (Errorf "unknown glob %q" [globStr]).
Proof.
  induction pre as [|a pre IH]; intros globs acc globStr post e Hpre Hbad.
  - simpl. now rewrite Hbad.
  - destruct globs as [|g globs]; [discriminate|].
    simpl in Hpre. injection Hpre as Ha Hrest.
    simpl. rewrite Ha. exact (IH globs _ globStr post e Hrest Hbad).
Qed.

(** ** The filter of RunSnapshotList *)

Lemma match_loop_spec (matches : list Glob) (s : Snapshot) :
  forall skip : bool,
    match_loop matches s skip
    = skip && negb (existsb (fun m => Match m (ID s) || Match m (Name s)) matches).
Proof.
  induction matches as [|m rest IH]; intros skip; simpl.
  - now rewrite andb_true_r.
  - rewrite IH.
    destruct (Match m (ID s)), (Match m (Name s)), skip; reflexivity.
Qed.

Lemma region_loop_spec (region : string) (regions : list string) :
  forall skip : bool,
    region_loop region regions skip
    = match regions with
      | [] => skip
      | _ :: _ => negb (existsb (String.eqb region) regions)
      end.
Proof.
  induction regions as [|r rest IH]; intros skip; simpl.
  - reflexivity.
  - destruct (String.eqb region r); simpl; [reflexivity|].
    rewrite IH. destruct rest; reflexivity.
Qed.

Lemma skip_snapshot_spec (matches : list Glob) (region : string) (s : Snapshot) :
  negb (skip_snapshot matches region s)
  = glob_selects matches s
    && ((region =? "")%string || region_allows region s).
Proof.
  unfold skip_snapshot, glob_selects, region_allows.
  rewrite length_eqb_0, region_loop_spec.
  destruct matches as [|m rest].
  - simpl. destruct (region =? "")%string; simpl; [reflexivity|].
    destruct (Regions s); simpl; [reflexivity|]. now rewrite negb_involutive.
  - rewrite match_loop_spec. cbn [andb].
    set (hit := existsb _ (m :: rest)).
    destruct hit; cbn [negb andb]; [|reflexivity].
    destruct (region =? "")%string; cbn [negb orb]; [reflexivity|].
    destruct (Regions s); [reflexivity|]. now rewrite negb_involutive.
Qed.

Lemma snapshots_loop_filter (matches : list Glob) (region : string) (fetched : list Snapshot) :
  forall matchedList : list Snapshot,
    snapshots_loop matches region fetched matchedList
    = matchedList
      ++ filter (fun s => glob_selects matches s
                          && ((region =? "")%string || region_allows region s)) fetched.
Proof.
  induction fetched as [|s rest IH]; intros matchedList; simpl.
  - now rewrite app_nil_r.
  - rewrite skip_snapshot_spec.
    destruct (glob_selects matches s && _); rewrite IH.
    + now rewrite <- app_assoc.
    + reflexivity.
Qed.

(** ** Service calls and the two loops over IDs *)

Lemma api_Ok {A : Type} (k : call) (op : W -> result A * W) (w w1 : W) (a : A) :
  op w = (Ok a, w1) -> api k op w = (Ok a, w1, [ApiCall k None]).
Proof. intros H. unfold api. now rewrite H. Qed.

Lemma api_Err {A : Type} (k : call) (op : W -> result A * W) (w w1 : W) (e : error) :
  op w = (Err e, w1) -> api k op w = (Err e, w1, [ApiCall k (Some e)]).
Proof. intros H. unfold api. now rewrite H. Qed.

Lemma api_delete_Ok (ss : SnapshotsService W) (id : string) (w w1 : W) :
  Delete ss id w = (None, w1) ->
  api_delete ss id w = (Ok tt, w1, [ApiCall (CallDelete id) None]).
Proof. intros H. unfold api_delete. apply api_Ok. now rewrite H. Qed.

Lemma api_delete_Err (ss : SnapshotsService W) (id : string) (w w1 : W) (e : error) :
  Delete ss id w = (Some e, w1) ->
  api_delete ss id w = (Err e, w1, [ApiCall (CallDelete id) (Some e)]).
Proof. intros H. unfold api_delete. apply api_Err. now rewrite H. Qed.

Lemma succeed_gets_length (ss : SnapshotsService W) (ids : list string)
  (w w1 : W) (l : list Snapshot) :
  succeed_gets ss ids w l w1 -> length l = length ids.
Proof. induction 1; simpl; congruence. Qed.

Lemma get_loop_all (ss : SnapshotsService W) (ids : list string)
  (w w1 : W) (l : list Snapshot) :
  succeed_gets ss ids w l w1 ->
  forall matchedList,
    get_loop ss ids matchedList w = (Ok (matchedList ++ l), w1, got ids).
Proof.
  induction 1 as [w|id ids w w1 w2 s l Hget _ IH]; intros matchedList.
  - simpl. unfold ret. now rewrite app_nil_r.
  - cbn [get_loop].
    rewrite (bind_Ok _ _ w w1 w2 s (Ok ((matchedList ++ [s]) ++ l))
               [ApiCall (CallGet id) None] (got ids)
               (api_Ok _ _ _ _ _ Hget) (IH _)).
    now rewrite <- app_assoc.
Qed.

Lemma get_loop_first_failure (ss : SnapshotsService W) (pre : list string)
  (w w1 : W) (l : list Snapshot) :
  succeed_gets ss pre w l w1 ->
  forall (id : string) (post : list string) (e : error) (w2 : W) matchedList,
    Get ss id w1 = (Err e, w2) ->
    get_loop ss (pre ++ id :: post) matchedList w
    = (Err e, w2, got pre ++ [ApiCall (CallGet id) (Some e)]).
Proof.
  induction 1 as [w|id0 ids w w1 w2 s l Hget _ IH];
    intros id post e w3 matchedList Hfail.
  - cbn [app get_loop got map].
    apply bind_Err. now apply api_Err.
  - cbn [app get_loop].
    exact (bind_Ok _ _ w w1 w3 s (Err e) [ApiCall (CallGet id0) None] _
             (api_Ok _ _ _ _ _ Hget) (IH id post e w3 _ Hfail)).
Qed.

Lemma delete_loop_all (ss : SnapshotsService W) (ids : list string) (w w1 : W) :
  succeed_deletes ss ids w w1 ->
  delete_loop ss ids w = (Ok tt, w1, deleted ids).
Proof.
  induction 1 as [w|id ids w w1 w2 Hdel _ IH].
  - reflexivity.
  - cbn [delete_loop].
    exact (bind_Ok _ _ w w1 w2 tt (Ok tt) [ApiCall (CallDelete id) None] _
             (api_delete_Ok _ _ _ _ Hdel) IH).
Qed.

Lemma delete_loop_first_failure (ss : SnapshotsService W) (pre : list string) (w w1 : W) :
  succeed_deletes ss pre w w1 ->
  forall (id : string) (post : list string) (e : error) (w2 : W),
    Delete ss id w1 = (Some e, w2) ->
    delete_loop ss (pre ++ id :: post) w
    = (Err e, w2, deleted pre ++ [ApiCall (CallDelete id) (Some e)]).
Proof.
  induction 1 as [w|id0 ids w w1 w2 Hdel _ IH]; intros id post e w3 Hfail.
  - cbn [app delete_loop deleted map].
    apply bind_Err. now apply api_delete_Err.
  - cbn [app delete_loop].
    exact (bind_Ok _ _ w w1 w3 tt (Err e) [ApiCall (CallDelete id0) None] _
             (api_delete_Ok _ _ _ _ Hdel) (IH id post e w3 Hfail)).
Qed.

(** Once the deletion goes ahead, the command is its loop, run after the
    prompt (if any). *)
Lemma RunSnapshotDelete_proceeds (c : CmdConfig W) (w w0 : W) (t0 : list event) :
  Args c <> [] ->
  proceeds c w w0 t0 ->
  RunSnapshotDelete c w
  = (fst (fst (delete_loop (Snapshots c) (Args c) w0)),
     snd (fst (delete_loop (Snapshots c) (Args c) w0)),
     t0 ++ snd (delete_loop (Snapshots c) (Args c) w0)).
Proof.
  intros Hargs Hgo. unfold RunSnapshotDelete.
  rewrite length_eqb_0. destruct (Args c) as [|id ids] eqn:HA; [congruence|].
  destruct Hgo as [Hforce|w1 Hforce Hask]; rewrite Hforce, bind_lift_Ok.
  - rewrite bind_ret.
    destruct (delete_loop (Snapshots c) (id :: ids) w) as [[r w2] t]. reflexivity.
  - rewrite HA in Hask.
    unfold bind at 1. unfold bind at 1. unfold confirm. rewrite Hask.
    unfold ret.
    destruct (delete_loop (Snapshots c) (id :: ids) w1) as [[r w2] t].
    rewrite HA. reflexivity.
Qed.

(** ** RunSnapshotList *)

(** The command once the flags are read, the globs compiled and the list
    fetched: it displays the fetched list filtered by globs and region. *)
Lemma RunSnapshotList_fetched (c : CmdConfig W) (w w1 : W) (restype region : string)
  (globs : list Glob) (l : list Snapshot) (t : list event) :
  GetString (Doit c) (NS c) ArgResourceType = Ok restype ->
  GetString (Doit c) (NS c) ArgRegionSlug = Ok region ->
  map Compile (Args c) = map Ok globs ->
  fetch (Snapshots c) restype region w = (Ok l, w1, t) ->
  let shown :=
    filter (fun s => glob_selects globs s
                     && ((region =? "")%string || region_allows region s)) l in
  RunSnapshotList c w
  = (of_error (fst (Display c shown w1)), snd (Display c shown w1),
     t ++ [Displayed shown (fst (Display c shown w1))]).
Proof.
  intros Hres Hreg Hglobs Hfetch shown. unfold RunSnapshotList.
  rewrite Hres, bind_lift_Ok, Hreg, bind_lift_Ok.
  rewrite (compile_loop_all _ globs [] Hglobs), bind_lift_Ok.
  apply (bind_Ok _ _ w w1 _ l _ t _ Hfetch).
  cbv zeta. rewrite snapshots_loop_filter. cbn [app]. fold shown.
  unfold display. destruct (Display c shown w1) as [e w2]. reflexivity.
Qed.

Lemma glob_selects_iff (globs : list Glob) (s : Snapshot) :
  glob_selects globs s = true <->
  globs = [] \/
  exists m, In m globs /\ (Match m (ID s) = true \/ Match m (Name s) = true).
Proof.
  unfold glob_selects. destruct globs as [|g globs].
  - split; auto.
  - rewrite existsb_exists. split.
    + intros [m [Hin Hm]]. right. exists m. split; [exact Hin|].
      now apply orb_true_iff.
    + intros [Hnil|[m [Hin Hm]]]; [discriminate|].
      exists m. split; [exact Hin|]. now apply orb_true_iff.
Qed.

Lemma region_allows_iff (region : string) (s : Snapshot) :
  region_allows region s = true <-> Regions s = [] \/ In region (Regions s).
Proof.
  unfold region_allows. destruct (Regions s) as [|r rs].
  - split; auto.
  - rewrite existsb_exists. split.
    + intros [x [Hin Hx]]. right. apply String.eqb_eq in Hx. now subst x.
    + intros [Hnil|Hin]; [discriminate|].
      exists region. split; [exact Hin|]. apply String.eqb_refl.
Qed.

Lemma map_Ok_nil (args : list string) (globs : list Glob) :
  map Compile args = map Ok globs -> (args = [] <-> globs = []).
Proof.
  intros H. destruct args, globs; try discriminate; split; auto; discriminate.
Qed.

(** C1.  With an empty region flag, [RunSnapshotList] displays the fetched
    snapshots filtered by the globs, in the order of the fetched list: a
    snapshot is displayed exactly when no glob was given or some compiled
    glob matches its ID or its name. *)
Theorem RunSnapshotList_glob_filter (c : CmdConfig W) (w w1 : W) (restype : string)
  (globs : list Glob) (l : list Snapshot) (t : list event) :
  GetString (Doit c) (NS c) ArgResourceType = Ok restype ->
  GetString (Doit c) (NS c) ArgRegionSlug = Ok "" ->
  map Compile (Args c) = map Ok globs ->
  fetch (Snapshots c) restype "" w = (Ok l, w1, t) ->
  let shown := filter (glob_selects globs) l in
  trace_of (RunSnapshotList c w) = t ++ [Displayed shown (fst (Display c shown w1))]
  /\ (forall s, In s shown <->
                In s l /\
                (Args c = [] \/
                 exists m, In m globs /\
                           (Match m (ID s) = true \/ Match m (Name s) = true))).
Proof.
  intros Hres Hreg Hglobs Hfetch shown.
  pose proof (RunSnapshotList_fetched c w w1 restype "" globs l t
                Hres Hreg Hglobs Hfetch) as Hrun.
  cbv zeta in Hrun.
  assert (Hsame : filter (fun s => glob_selects globs s
                                   && (("" =? "")%string || region_allows "" s)) l
                  = shown).
  { apply filter_ext. intros s. cbn [String.eqb orb]. apply andb_true_r. }
  rewrite Hsame in Hrun. split.
  - rewrite Hrun. reflexivity.
  - intros s. unfold shown. rewrite filter_In, glob_selects_iff.
    rewrite (map_Ok_nil _ _ Hglobs). reflexivity.
Qed.

(** C8.  With a non-empty region flag, a fetched snapshot that passes the
    glob filter is displayed if and only if its region list is empty or
    contains the requested region. *)
Theorem RunSnapshotList_region_filter (c : CmdConfig W) (w w1 : W)
  (restype region : string) (globs : list Glob) (l : list Snapshot) (t : list event) :
  region <> "" ->
  GetString (Doit c) (NS c) ArgResourceType = Ok restype ->
  GetString (Doit c) (NS c) ArgRegionSlug = Ok region ->
  map Compile (Args c) = map Ok globs ->
  fetch (Snapshots c) restype region w = (Ok l, w1, t) ->
  let shown := filter (fun s => glob_selects globs s && region_allows region s) l in
  trace_of (RunSnapshotList c w) = t ++ [Displayed shown (fst (Display c shown w1))]
  /\ (forall s, In s l -> glob_selects globs s = true ->
                (In s shown <-> Regions s = [] \/ In region (Regions s)))
  /\ (forall s, In s l -> glob_selects globs s = true -> Regions s = [] -> In s shown).
Proof.
  intros Hne Hres Hreg Hglobs Hfetch shown.
  pose proof (RunSnapshotList_fetched c w w1 restype region globs l t
                Hres Hreg Hglobs Hfetch) as Hrun.
  cbv zeta in Hrun.
  apply String.eqb_neq in Hne. rewrite Hne in Hrun. cbn [orb] in Hrun.
  fold shown in Hrun.
  assert (Hiff : forall s, In s l -> glob_selects globs s = true ->
                           (In s shown <-> Regions s = [] \/ In region (Regions s))).
  { intros s Hin Hsel. unfold shown.
    rewrite filter_In, Hsel, <- region_allows_iff. cbn [andb]. tauto. }
  split; [|split].
  - rewrite Hrun. reflexivity.
  - exact Hiff.
  - intros s Hin Hsel Hnil. apply (Hiff s Hin Hsel). now left.
Qed.

(** C9.  When some positional argument does not compile as a glob,
    [RunSnapshotList] makes no call at all (no listing, no display), and,
    the flags being readable, it returns the "unknown glob" error built
    from the first such argument. *)
Theorem RunSnapshotList_unknown_glob (c : CmdConfig W) (w : W)
  (pre : list string) (globStr : string) (post : list string)
  (globs : list Glob) (e : error) :
  Args c = pre ++ globStr :: post ->
  map Compile pre = map Ok globs ->
  Compile globStr = Err e ->
  trace_of (RunSnapshotList c w) = []
  /\ world_of (RunSnapshotList c w) = w
  /\ (forall restype region,
        GetString (Doit c) (NS c) ArgResourceType = Ok restype ->
        GetString (Doit c) (NS c) ArgRegionSlug = Ok region ->
        returned (RunSnapshotList c w) = Some (Errorf "unknown glob %q" [globStr])).
Proof.
  intros HA Hpre Hbad.
  assert (Hc : compile_loop (Args c) [] = Err (Errorf "unknown glob %q" [globStr])).
  { rewrite HA. exact (compile_loop_first_failure pre globs [] globStr post e Hpre Hbad). }
  unfold RunSnapshotList.
  destruct (GetString (Doit c) (NS c) ArgResourceType) as [restype|e1];
    [rewrite bind_lift_Ok|rewrite bind_lift_Err].
  - destruct (GetString (Doit c) (NS c) ArgRegionSlug) as [region|e2];
      [rewrite bind_lift_Ok|rewrite bind_lift_Err].
    + rewrite Hc, bind_lift_Err. repeat split. 
    + repeat split. intros ? ? _ H. discriminate H.
  - repeat split. intros ? ? H. discriminate H.
Qed.

(** ** RunSnapshotGet and RunSnapshotDelete *)

(** C10.  On a non-empty argument list whose [Get] calls all succeed,
    [RunSnapshotGet] fetches the IDs in argument order and then displays
    the fetched snapshots, one per argument, in that same order. *)
Theorem RunSnapshotGet_displays_in_order (c : CmdConfig W) (w w1 : W)
  (l : list Snapshot) :
  Args c <> [] ->
  succeed_gets (Snapshots c) (Args c) w l w1 ->
  trace_of (RunSnapshotGet c w)
  = got (Args c) ++ [Displayed l (fst (Display c l w1))]
  /\ length l = length (Args c).
Proof.
  intros Hargs Hgets. split; [|exact (succeed_gets_length _ _ _ _ _ Hgets)].
  unfold RunSnapshotGet. rewrite length_eqb_0.
  destruct (Args c) as [|id ids] eqn:HA; [congruence|].
  pose proof (get_loop_all _ _ _ _ _ Hgets []) as Hloop. cbn [app] in Hloop.
  unfold bind. rewrite Hloop. unfold display.
  destruct (Display c l w1) as [e w2]. reflexivity.
Qed.

(** C5.  With no argument, [RunSnapshotGet] and [RunSnapshotDelete] return
    the missing-arguments error of their namespace and touch nothing: the
    trace is empty and the world unchanged. *)
Theorem missing_args_error (run : CmdConfig W -> Cmd W unit) (c : CmdConfig W) (w : W) :
  In run [RunSnapshotGet; RunSnapshotDelete] ->
  Args c = [] ->
  run c w = (Err (MissingArgsErr (NS c)), w, []).
Proof.
  intros [Hrun|[Hrun|[]]] HA; subst run.
  - unfold RunSnapshotGet. rewrite HA. reflexivity.
  - unfold RunSnapshotDelete. rewrite HA. reflexivity.
Qed.

(** C2.  With arguments, the force flag unset and the prompt declined,
    [RunSnapshotDelete] returns [errOperationAborted]; the only interaction
    is the prompt, so no [Delete] call (no API call at all) is made. *)
Theorem RunSnapshotDelete_declined (c : CmdConfig W) (w w1 : W) (e : error) :
  Args c <> [] ->
  GetBool (Doit c) (NS c) ArgForce = Ok false ->
  AskForConfirmDelete "snapshot" (length (Args c)) w = (Some e, w1) ->
  RunSnapshotDelete c w
  = (Err errOperationAborted, w1, [Prompt "snapshot" (length (Args c)) (Some e)])
  /\ api_calls (trace_of (RunSnapshotDelete c w)) = [].
Proof.
  intros Hargs Hforce Hask.
  assert (Hrun : RunSnapshotDelete c w
                 = (Err errOperationAborted, w1,
                    [Prompt "snapshot" (length (Args c)) (Some e)])).
  { unfold RunSnapshotDelete. rewrite length_eqb_0.
    destruct (Args c) as [|id ids] eqn:HA; [congruence|].
    rewrite Hforce, bind_lift_Ok.
    unfold bind, confirm, ret, lift. rewrite Hask. reflexivity. }
  split; [exact Hrun|]. rewrite Hrun. reflexivity.
Qed.

(** C3.  Both loops over IDs stop at the first failure: when the calls for
    the IDs before some ID succeed and the call for that ID fails, the
    command has made exactly those calls, in order, none for a later ID,
    and returns the error of the failed call. *)
Theorem loops_stop_at_first_failure (c : CmdConfig W) (w : W)
  (pre : list string) (id : string) (post : list string) (e : error) :
  Args c = pre ++ id :: post ->
  (forall l w1 w2,
      succeed_gets (Snapshots c) pre w l w1 ->
      Get (Snapshots c) id w1 = (Err e, w2) ->
      RunSnapshotGet c w
      = (Err e, w2, got pre ++ [ApiCall (CallGet id) (Some e)]))
  /\ (forall w0 t0 w1 w2,
        proceeds c w w0 t0 ->
        succeed_deletes (Snapshots c) pre w0 w1 ->
        Delete (Snapshots c) id w1 = (Some e, w2) ->
        RunSnapshotDelete c w
        = (Err e, w2, t0 ++ deleted pre ++ [ApiCall (CallDelete id) (Some e)])).
Proof.
  intros HA.
  assert (Hne : Args c <> []) by (rewrite HA; now destruct pre).
  split.
  - intros l w1 w2 Hgets Hfail.
    unfold RunSnapshotGet. rewrite length_eqb_0.
    destruct (Args c) as [|i rest] eqn:HA'; [congruence|]. rewrite HA.
    apply bind_Err.
    exact (get_loop_first_failure _ _ _ _ _ Hgets id post e w2 [] Hfail).
  - intros w0 t0 w1 w2 Hgo Hdels Hfail.
    rewrite (RunSnapshotDelete_proceeds c w w0 t0 Hne Hgo), HA.
    rewrite (delete_loop_first_failure _ _ _ _ Hdels id post e w2 Hfail).
    reflexivity.
Qed.

(** ** Errors of the service are passed through *)

Lemma passthrough_lift {A : Type} (r : result A) (w : W) : passthrough (lift r w).
Proof. intros k e []. Qed.

Lemma passthrough_api {A : Type} (k : call) (op : W -> result A * W) (w : W) :
  passthrough (api k op w).
Proof.
  intros k' e. unfold api. destruct (op w) as [[a|e0] w1]; cbn.
  - intros [H|[]]. discriminate H.
  - intros [H|[]]. now injection H as _ ->.
Qed.

Lemma passthrough_display (c : CmdConfig W) (l : list Snapshot) (w : W) :
  passthrough (display c l w).
Proof.
  intros k e. unfold display. destruct (Display c l w) as [e0 w1]; cbn.
  intros [H|[]]. discriminate H.
Qed.

Lemma passthrough_bind {A B : Type} (m : Cmd W A) (f : A -> Cmd W B) (w : W) :
  passthrough (m w) ->
  (forall a w1, passthrough (f a w1)) ->
  passthrough (bind m f w).
Proof.
  intros Hm Hf k e. unfold bind.
  destruct (m w) as [[[a|e0] w1] t1] eqn:Em.
  - specialize (Hf a w1). destruct (f a w1) as [[r w2] t2]. cbn.
    intros Hin. apply in_app_or in Hin. destruct Hin as [Hin|Hin].
    + specialize (Hm k e Hin). discriminate Hm.
    + exact (Hf k e Hin).
  - cbn. intros Hin. specialize (Hm k e Hin). cbn in Hm. congruence.
Qed.

Lemma passthrough_fetch (ss : SnapshotsService W) (restype region : string) (w : W) :
  passthrough (fetch ss restype region w).
Proof.
  unfold fetch.
  destruct (restype =? "droplet")%string; [apply passthrough_api|].
  destruct (restype =? "volume")%string; [|apply passthrough_api].
  destruct (negb (region =? "")%string); apply passthrough_api.
Qed.

Lemma passthrough_get_loop (ss : SnapshotsService W) (ids : list string) :
  forall matchedList w, passthrough (get_loop ss ids matchedList w).
Proof.
  induction ids as [|id rest IH]; intros matchedList w.
  - apply (passthrough_lift (Ok matchedList)).
  - cbn [get_loop]. apply passthrough_bind; [apply passthrough_api|].
    intros s w1. apply IH.
Qed.

Lemma passthrough_delete_loop (ss : SnapshotsService W) (ids : list string) :
  forall w, passthrough (delete_loop ss ids w).
Proof.
  induction ids as [|id rest IH]; intros w.
  - apply (passthrough_lift (Ok tt)).
  - cbn [delete_loop]. apply passthrough_bind; [apply passthrough_api|].
    intros _ w1. apply IH.
Qed.

Lemma passthrough_confirm (resource : string) (count : nat) (w : W) :
  passthrough (confirm resource count w).
Proof.
  intros k e. unfold confirm.
  destruct (AskForConfirmDelete resource count w) as [e0 w1]; cbn.
  intros [H|[]]. discriminate H.
Qed.

Lemma passthrough_RunSnapshotList (c : CmdConfig W) (w : W) :
  passthrough (RunSnapshotList c w).
Proof.
  unfold RunSnapshotList.
  apply passthrough_bind; [apply passthrough_lift|]. intros restype w1.
  apply passthrough_bind; [apply passthrough_lift|]. intros region w2.
  apply passthrough_bind; [apply passthrough_lift|]. intros matches w3.
  apply passthrough_bind; [apply passthrough_fetch|]. intros fetched w4.
  apply passthrough_display.
Qed.

Lemma passthrough_RunSnapshotGet (c : CmdConfig W) (w : W) :
  passthrough (RunSnapshotGet c w).
Proof.
  unfold RunSnapshotGet.
  destruct (Nat.eqb (length (Args c)) 0); [apply passthrough_lift|].
  apply passthrough_bind; [apply passthrough_get_loop|]. intros l w1.
  apply passthrough_display.
Qed.

Lemma passthrough_RunSnapshotDelete (c : CmdConfig W) (w : W) :
  passthrough (RunSnapshotDelete c w).
Proof.
  unfold RunSnapshotDelete.
  destruct (Nat.eqb (length (Args c)) 0); [apply passthrough_lift|].
  apply passthrough_bind; [apply passthrough_lift|]. intros force w1.
  apply passthrough_bind.
  - destruct force; [apply (passthrough_lift (Ok true))|].
    apply passthrough_bind; [apply passthrough_confirm|]. intros answer w2.
    apply (passthrough_lift (Ok _)).
  - intros proceed w2.
    destruct proceed; [apply passthrough_delete_loop|apply passthrough_lift].
Qed.

(** A failed call that shows in the trace of [RunSnapshotList],
    [RunSnapshotGet] or [RunSnapshotDelete] is what the command returns. *)
Lemma failed_call_is_returned (run : CmdConfig W -> Cmd W unit)
  (c : CmdConfig W) (w : W) (k : call) (e : error) :
  In run [RunSnapshotList; RunSnapshotGet; RunSnapshotDelete] ->
  In (ApiCall k (Some e)) (trace_of (run c w)) ->
  returned (run c w) = Some e.
Proof.
  intros Hrun Hin. unfold returned.
  assert (Hp : passthrough (run c w)).
  { destruct Hrun as [<-|[<-|[<-|[]]]].
    - apply passthrough_RunSnapshotList.
    - apply passthrough_RunSnapshotGet.
    - apply passthrough_RunSnapshotDelete. }
  rewrite (Hp k e Hin). reflexivity.
Qed.

(** ** Mutating calls *)

Lemma mutations_app (t1 t2 : list event) :
  mutations (t1 ++ t2) = mutations t1 ++ mutations t2.
Proof.
  induction t1 as [|ev t1 IH]; [reflexivity|].
  destruct ev as [k o| |]; cbn [app mutations]; try exact IH.
  destruct k; cbn; rewrite ?IH; reflexivity.
Qed.

(** After a step that mutates nothing, whatever holds of the mutations of
    every continuation (and of no mutation at all) holds of the whole. *)
Lemma mutations_bind_quiet {A B : Type} (m : Cmd W A) (f : A -> Cmd W B) (w : W)
  (P : list string -> Prop) :
  mutations (trace_of (m w)) = [] ->
  P [] ->
  (forall a w1, P (mutations (trace_of (f a w1)))) ->
  P (mutations (trace_of (bind m f w))).
Proof.
  intros Hm Hnil Hf. unfold bind.
  destruct (m w) as [[[a|e0] w1] t1]; cbn in Hm.
  - specialize (Hf a w1). destruct (f a w1) as [[r w2] t2]. cbn in *.
    now rewrite mutations_app, Hm.
  - cbn. now rewrite Hm.
Qed.

Lemma mutations_fetch (ss : SnapshotsService W) (restype region : string) (w : W) :
  mutations (trace_of (fetch ss restype region w)) = [].
Proof.
  unfold fetch, api.
  destruct (restype =? "droplet")%string;
    [destruct (ListDroplet ss w); reflexivity|].
  destruct (restype =? "volume")%string;
    [|destruct (List ss w); reflexivity].
  destruct (negb (region =? "")%string).
  - destruct (ListVolumeSnapshotByRegion ss region w); reflexivity.
  - destruct (ListVolume ss w); reflexivity.
Qed.

Lemma mutations_display (c : CmdConfig W) (l : list Snapshot) (w : W) :
  mutations (trace_of (display c l w)) = [].
Proof. unfold display. destruct (Display c l w). reflexivity. Qed.

Lemma mutations_get_loop (ss : SnapshotsService W) (ids : list string) :
  forall matchedList w, mutations (trace_of (get_loop ss ids matchedList w)) = [].
Proof.
  induction ids as [|id rest IH]; intros matchedList w; [reflexivity|].
  cbn [get_loop]. apply mutations_bind_quiet; [|reflexivity|].
  - unfold api. destruct (Get ss id w). reflexivity.
  - intros s w1. apply IH.
Qed.

Lemma mutations_delete_loop (ss : SnapshotsService W) (ids : list string) :
  forall w, exists n, mutations (trace_of (delete_loop ss ids w)) = firstn n ids.
Proof.
  induction ids as [|id rest IH]; intros w.
  - exists 0. reflexivity.
  - cbn [delete_loop]. unfold bind, api_delete, api.
    destruct (Delete ss id w) as [[e0|] w1]; cbn.
    + exists 1. reflexivity.
    + destruct (IH w1) as [n Hn].
      destruct (delete_loop ss rest w1) as [[r w2] t2]. cbn in *.
      exists (S n). now rewrite Hn.
Qed.

(** The mutating calls along the traces: none for [RunSnapshotList] and
    [RunSnapshotGet], an initial segment of the arguments for
    [RunSnapshotDelete]. *)
Lemma mutations_shape (c : CmdConfig W) (w : W) :
  mutations (trace_of (RunSnapshotList c w)) = []
  /\ mutations (trace_of (RunSnapshotGet c w)) = []
  /\ (exists n, mutations (trace_of (RunSnapshotDelete c w)) = firstn n (Args c))
  /\ length (mutations (trace_of (RunSnapshotDelete c w))) <= length (Args c).
Proof.
  assert (Hdel : exists n,
             mutations (trace_of (RunSnapshotDelete c w)) = firstn n (Args c)).
  { unfold RunSnapshotDelete.
    destruct (Nat.eqb (length (Args c)) 0); [exists 0; reflexivity|].
    apply mutations_bind_quiet; [reflexivity|exists 0; reflexivity|].
    intros force w1.
    apply mutations_bind_quiet; [|exists 0; reflexivity|].
    - destruct force; [reflexivity|].
      unfold bind, confirm, ret.
      destruct (AskForConfirmDelete "snapshot" (length (Args c)) w1). reflexivity.
    - intros proceed w2. destruct proceed; [apply mutations_delete_loop|].
      exists 0. reflexivity. }
  split; [|split; [|split]].
  - unfold RunSnapshotList.
    apply mutations_bind_quiet; [reflexivity|reflexivity|]. intros restype w1.
    apply mutations_bind_quiet; [reflexivity|reflexivity|]. intros region w2.
    apply mutations_bind_quiet; [reflexivity|reflexivity|]. intros matches w3.
    apply mutations_bind_quiet; [apply mutations_fetch|reflexivity|].
    intros fetched w4. apply mutations_display.
  - unfold RunSnapshotGet.
    destruct (Nat.eqb (length (Args c)) 0); [reflexivity|].
    apply mutations_bind_quiet; [apply mutations_get_loop|reflexivity|].
    intros l w1. apply mutations_display.
  - exact Hdel.
  - destruct Hdel as [n Hn]. rewrite Hn. rewrite length_firstn. lia.
Qed.

End Facts.

(** ** The completion poller *)

Section PollerFacts.

Context {W State : Type}.
Variable fetch_state : string -> W -> State * W.
Variable terminal : State -> bool.
Variable interval : nat.

Lemma poll_pauses (attempts : nat) :
  forall id w,
    Forall (fun i => i = interval)
      (Poller.pauses (snd (Poller.poll fetch_state terminal interval attempts id w))).
Proof.
  induction attempts as [|n IH]; intros id w; cbn.
  - constructor.
  - destruct (fetch_state id w) as [s w1].
    destruct (terminal s); cbn; [constructor|].
    specialize (IH id w1).
    destruct (Poller.poll fetch_state terminal interval n id w1) as [[r w2] t].
    cbn in *.
    now constructor.
Qed.

(** The two ways a run of the poller ends, read off its trace. *)
Lemma poll_dichotomy (attempts : nat) (id : string) (w : W) :
  let o := Poller.poll fetch_state terminal interval attempts id w in
  let seen := Poller.fetches (snd o) in
  Forall (fun i => i = interval) (Poller.pauses (snd o))
  /\ ((exists init s,
         fst (fst o) = Poller.Final s
         /\ seen = init ++ [s]
         /\ terminal s = true
         /\ Forall (fun x => terminal x = false) init
         /\ length seen <= attempts)
      \/ (fst (fst o) = Poller.Timeout
          /\ length seen = attempts
          /\ Forall (fun x => terminal x = false) seen)).
Proof.
  cbv zeta. split; [apply poll_pauses|].
  revert w. induction attempts as [|n IH]; intros w; cbn.
  - right. repeat split. constructor.
  - destruct (fetch_state id w) as [s w1].
    destruct (terminal s) eqn:Hs; cbn.
    + left. exists [], s. repeat split; [exact Hs|constructor|lia].
    + specialize (IH w1).
      destruct (Poller.poll fetch_state terminal interval n id w1) as [[r w2] t].
      cbn in *.
      destruct IH as [[init [s' [Hr [Hseen [Hs' [Hinit Hlen]]]]]]|[Hr [Hlen Hall]]].
      * left. exists (s :: init), s'. rewrite Hseen.
        repeat split; [exact Hr|exact Hs'|now constructor|].
        rewrite Hseen in Hlen. cbn. lia.
      * right. repeat split; [exact Hr|now rewrite Hlen|now constructor].
Qed.

End PollerFacts.

Example poll_reaches_terminal :
  Poller.poll (fun _ n => (n, S n)) (fun s => (3 <=? s)%nat) 10 5 "deployment" 0
  = (Poller.Final 3, 4,
     [Poller.Fetched 0; Poller.Slept 10; Poller.Fetched 1; Poller.Slept 10;
      Poller.Fetched 2; Poller.Slept 10; Poller.Fetched 3]).
Proof. reflexivity. Qed.

Example poll_times_out :
  fst (fst (Poller.poll (fun _ n => (n, S n)) (fun s => (30 <=? s)%nat) 10 5 "deployment" 0))
  = Poller.Timeout.
Proof. reflexivity. Qed.

(** ** The theorems at work on the double *)

Lemma RunSnapshotList_glob_filter_witness :
  trace_of (RunSnapshotList (Mock.cmd [] ["db-backup"; "1"]) Mock.account)
  = [ApiCall CallList None; Displayed [Mock.s1; Mock.s2] None].
Proof.
  exact (proj1 (RunSnapshotList_glob_filter
                  (Mock.cmd [] ["db-backup"; "1"]) Mock.account Mock.account ""
                  ["db-backup"; "1"] [Mock.s1; Mock.s2; Mock.s3]
                  [ApiCall CallList None]
                  eq_refl eq_refl eq_refl eq_refl)).
Defined.

Lemma RunSnapshotList_region_filter_witness :
  trace_of (RunSnapshotList (Mock.cmd [("region", "ams3")] ["*"]) Mock.account)
  = [ApiCall CallList None; Displayed [Mock.s2; Mock.s3] None].
Proof.
  refine (proj1 (RunSnapshotList_region_filter
                   (Mock.cmd [("region", "ams3")] ["*"]) Mock.account Mock.account
                   "" "ams3" ["*"] [Mock.s1; Mock.s2; Mock.s3]
                   [ApiCall CallList None]
                   _ eq_refl eq_refl eq_refl eq_refl)).
  discriminate.
Defined.

Lemma RunSnapshotList_unknown_glob_witness :
  returned (RunSnapshotList (Mock.cmd [] ["db-backup"; "["; "1"]) Mock.account)
  = Some (Errorf "unknown glob %q" ["["]).
Proof.
  exact (proj2 (proj2 (RunSnapshotList_unknown_glob
                         (Mock.cmd [] ["db-backup"; "["; "1"]) Mock.account
                         ["db-backup"] "[" ["1"] ["db-backup"]
                         (ExternalErr "unexpected end of input")
                         eq_refl eq_refl eq_refl))
           "" "" eq_refl eq_refl).
Defined.

Lemma RunSnapshotGet_displays_in_order_witness :
  trace_of (RunSnapshotGet (Mock.cmd [] ["2"; "1"]) Mock.account)
  = [ApiCall (CallGet "2") None; ApiCall (CallGet "1") None;
     Displayed [Mock.s2; Mock.s1] None].
Proof.
  refine (proj1 (RunSnapshotGet_displays_in_order
                   (Mock.cmd [] ["2"; "1"]) Mock.account Mock.account
                   [Mock.s2; Mock.s1] _ _)).
  - discriminate.
  - repeat (eapply succeed_gets_cons; [reflexivity|]). apply succeed_gets_nil.
Defined.

Lemma missing_args_error_witness :
  RunSnapshotDelete (Mock.cmd [] []) Mock.account
  = (Err (MissingArgsErr "snapshot"), Mock.account, []).
Proof.
  refine (missing_args_error RunSnapshotDelete (Mock.cmd [] []) Mock.account _ eq_refl).
  right. left. reflexivity.
Defined.

Lemma RunSnapshotDelete_declined_witness :
  api_calls (trace_of (RunSnapshotDelete (Mock.cmd [] ["2"; "1"]) Mock.account)) = [].
Proof.
  refine (proj2 (RunSnapshotDelete_declined
                   (Mock.cmd [] ["2"; "1"]) Mock.account
                   (Mock.mkWorld [Mock.s1; Mock.s2; Mock.s3] [])
                   (ExternalErr "invalid response") _ eq_refl eq_refl)).
  discriminate.
Defined.

Lemma loops_stop_at_first_failure_witness :
  RunSnapshotGet (Mock.cmd [] ["2"; "9"; "1"]) Mock.account
  = (Err Mock.not_found, Mock.account,
     [ApiCall (CallGet "2") None; ApiCall (CallGet "9") (Some Mock.not_found)])
  /\ RunSnapshotDelete (Mock.cmd [("force", "true")] ["2"; "9"; "1"]) Mock.account
     = (Err Mock.not_found, Mock.mkWorld [Mock.s1; Mock.s3] ["n"],
        [ApiCall (CallDelete "2") None; ApiCall (CallDelete "9") (Some Mock.not_found)]).
Proof.
  split.
  - refine (proj1 (loops_stop_at_first_failure
                     (Mock.cmd [] ["2"; "9"; "1"]) Mock.account
                     ["2"] "9" ["1"] Mock.not_found eq_refl)
              [Mock.s2] Mock.account Mock.account _ eq_refl).
    eapply succeed_gets_cons; [reflexivity|]. apply succeed_gets_nil.
  - refine (proj2 (loops_stop_at_first_failure
                     (Mock.cmd [("force", "true")] ["2"; "9"; "1"]) Mock.account
                     ["2"] "9" ["1"] Mock.not_found eq_refl)
              Mock.account [] (Mock.mkWorld [Mock.s1; Mock.s3] ["n"])
              (Mock.mkWorld [Mock.s1; Mock.s3] ["n"]) _ _ eq_refl).
    + apply proceeds_force. reflexivity.
    + eapply succeed_deletes_cons; [reflexivity|]. apply succeed_deletes_nil.
Defined.


(** C4 as stated fails: a forced deletion of two snapshots performs two
    mutating calls in one invocation. *)
Lemma RunSnapshotDelete_two_mutations :
  ~ length (mutations (trace_of
       (RunSnapshotDelete (Mock.cmd [("force", "true")] ["2"; "1"]) Mock.account))) <= 1.
Proof. cbn. lia. Qed.

(** * Further properties of the snapshot commands *)

Section MoreFacts.

Context {W : Type} {E : Env W}.

(** ** Traces of the building blocks *)

Lemma api_calls_app (t1 t2 : list event) :
  api_calls (t1 ++ t2) = api_calls t1 ++ api_calls t2.
Proof.
  induction t1 as [|ev t1 IH]; [reflexivity|].
  destruct ev; cbn [app api_calls]; rewrite IH; reflexivity.
Qed.

Lemma api_calls_got (ids : list string) : api_calls (got ids) = map CallGet ids.
Proof. induction ids as [|id ids IH]; cbn; [|rewrite <- IH]; reflexivity. Qed.

(** A step followed by the display: the display adds no API call. *)
Lemma api_calls_then_display {A : Type} (m : Cmd W A) (g : A -> list Snapshot)
  (c : CmdConfig W) (w : W) :
  api_calls (trace_of (bind m (fun a => display c (g a)) w))
  = api_calls (trace_of (m w)).
Proof.
  unfold bind, display. destruct (m w) as [[[a|e] w1] t1]; [|reflexivity].
  destruct (Display c (g a) w1) as [e w2]. cbn.
  rewrite api_calls_app. cbn. apply app_nil_r.
Qed.



(** The calls made by the loop of [RunSnapshotGet]: [Get] calls for an
    initial segment of the IDs, and nothing else. *)
Lemma get_loop_calls (ss : SnapshotsService W) (ids : list string) :
  forall matchedList w,
    (exists n, api_calls (trace_of (get_loop ss ids matchedList w))
               = map CallGet (firstn n ids))
    /\ (forall ev, In ev (trace_of (get_loop ss ids matchedList w)) ->
                   exists k o, ev = ApiCall k o).
Proof.
  induction ids as [|id rest IH]; intros matchedList w.
  - split; [exists 0; reflexivity|intros ev []].
  - cbn [get_loop]. unfold bind, api.
    destruct (Get ss id w) as [[s|e] w1]; cbn.
    + destruct (IH (matchedList ++ [s]) w1) as [[n Hn] Honly].
      destruct (get_loop ss rest (matchedList ++ [s]) w1) as [[r w2] t2].
      cbn in *. split.
      * exists (S n). cbn. now rewrite Hn.
      * intros ev [<-|Hin]; eauto.
    + split; [exists 1; reflexivity|]. intros ev [<-|[]]. eauto.
Qed.

(** The events of the loop of [RunSnapshotDelete]: [Delete] calls for IDs
    of the list. *)
Lemma delete_loop_events (ss : SnapshotsService W) (ids : list string) :
  forall w ev,
    In ev (trace_of (delete_loop ss ids w)) ->
    exists id o, ev = ApiCall (CallDelete id) o /\ In id ids.
Proof.
  induction ids as [|id rest IH]; intros w ev; [intros []|].
  cbn [delete_loop]. unfold bind, api_delete, api.
  destruct (Delete ss id w) as [[e0|] w1]; cbn.
  - intros [<-|[]]. exists id, (Some e0). split; [reflexivity|now left].
  - specialize (IH w1 ev).
    destruct (delete_loop ss rest w1) as [[r w2] t2]. cbn in *.
    intros [<-|Hin].
    + exists id, None. split; [reflexivity|now left].
    + destruct (IH Hin) as [id' [o [Hev Hid]]]. exists id', o.
      split; [exact Hev|now right].
Qed.

(** When the list call fails, the command ends there. *)
Lemma RunSnapshotList_fetch_failed (c : CmdConfig W) (w w1 : W)
  (restype region : string) (globs : list Glob) (e : error) (t : list event) :
  GetString (Doit c) (NS c) ArgResourceType = Ok restype ->
  GetString (Doit c) (NS c) ArgRegionSlug = Ok region ->
  map Compile (Args c) = map Ok globs ->
  fetch (Snapshots c) restype region w = (Err e, w1, t) ->
  RunSnapshotList c w = (Err e, w1, t).
Proof.
  intros Hres Hreg Hglobs Hfetch. unfold RunSnapshotList.
  rewrite Hres, bind_lift_Ok, Hreg, bind_lift_Ok.
  rewrite (compile_loop_all _ globs [] Hglobs), bind_lift_Ok.
  now apply bind_Err.
Qed.

Lemma RunSnapshotList_calls (c : CmdConfig W) (w : W)
  (restype region : string) (globs : list Glob) :
  GetString (Doit c) (NS c) ArgResourceType = Ok restype ->
  GetString (Doit c) (NS c) ArgRegionSlug = Ok region ->
  map Compile (Args c) = map Ok globs ->
  api_calls (trace_of (RunSnapshotList c w))
  = api_calls (trace_of (fetch (Snapshots c) restype region w)).
Proof.
  intros Hres Hreg Hglobs.
  destruct (fetch (Snapshots c) restype region w) as [[[l|e] w1] t] eqn:Hfetch.
  - rewrite (RunSnapshotList_fetched c w w1 restype region globs l t
               Hres Hreg Hglobs Hfetch).
    cbn. rewrite api_calls_app. cbn. apply app_nil_r.
  - rewrite (RunSnapshotList_fetch_failed c w w1 restype region globs e t
               Hres Hreg Hglobs Hfetch).
    reflexivity.
Qed.

Lemma api_calls_api {A : Type} (k : call) (op : W -> result A * W) (w : W) :
  api_calls (trace_of (api k op w)) = [k].
Proof. unfold api. destruct (op w). reflexivity. Qed.

(** ** RunSnapshotList: which call, and what happens on errors *)

(** The call recorded in the trace of [RunSnapshotList], by resource
    type. *)
Lemma RunSnapshotList_call_recorded (c : CmdConfig W) (w : W)
  (restype region : string) (globs : list Glob) :
  GetString (Doit c) (NS c) ArgResourceType = Ok restype ->
  GetString (Doit c) (NS c) ArgRegionSlug = Ok region ->
  map Compile (Args c) = map Ok globs ->
  let calls := api_calls (trace_of (RunSnapshotList c w)) in
  (restype = "droplet" -> calls = [CallListDroplet])
  /\ (restype = "volume" -> region <> "" ->
      calls = [CallListVolumeSnapshotByRegion region])
  /\ (restype = "volume" -> region = "" -> calls = [CallListVolume])
  /\ (restype <> "droplet" -> restype <> "volume" -> calls = [CallList]).
Proof.
  intros Hres Hreg Hglobs calls. unfold calls.
  rewrite (RunSnapshotList_calls c w restype region globs Hres Hreg Hglobs).
  unfold fetch. repeat split.
  - intros ->. cbn [String.eqb Ascii.eqb Bool.eqb]. apply api_calls_api.
  - intros -> Hne. apply String.eqb_neq in Hne. rewrite Hne.
    cbn. apply api_calls_api.
  - intros -> ->. cbn. apply api_calls_api.
  - intros Hd Hv. apply String.eqb_neq in Hd, Hv. rewrite Hd, Hv.
    apply api_calls_api.
Qed.

(** X2.  When a flag cannot be read, [RunSnapshotList] returns the error
    of the lookup and does nothing else: no glob is compiled into a
    request, nothing is listed, nothing is displayed. *)
Theorem RunSnapshotList_flag_error (c : CmdConfig W) (w : W) (e : error) :
  GetString (Doit c) (NS c) ArgResourceType = Err e
  \/ ((exists restype, GetString (Doit c) (NS c) ArgResourceType = Ok restype)
      /\ GetString (Doit c) (NS c) ArgRegionSlug = Err e) ->
  RunSnapshotList c w = (Err e, w, []).
Proof.
  intros [Hres|[[restype Hres] Hreg]]; unfold RunSnapshotList.
  - rewrite Hres. apply bind_lift_Err.
  - rewrite Hres, bind_lift_Ok, Hreg. apply bind_lift_Err.
Qed.


(** ** RunSnapshotGet only reads *)

(** X4.  The service calls of [RunSnapshotGet] are [Get] calls for an
    initial segment of its arguments, in argument order: it never lists
    and never deletes, and it never prompts. *)
Theorem RunSnapshotGet_only_gets (c : CmdConfig W) (w : W) :
  (exists n, api_calls (trace_of (RunSnapshotGet c w)) = map CallGet (firstn n (Args c)))
  /\ (forall resource count answer,
        ~ In (Prompt resource count answer) (trace_of (RunSnapshotGet c w))).
Proof.
  unfold RunSnapshotGet.
  destruct (Nat.eqb (length (Args c)) 0).
  - split; [exists 0; reflexivity|intros ? ? ? []].
  - destruct (get_loop_calls (Snapshots c) (Args c) [] w) as [Hcalls Honly].
    split.
    + rewrite (api_calls_then_display (get_loop (Snapshots c) (Args c) [])
                 (fun l => l) c w).
      exact Hcalls.
    + intros resource count answer. unfold bind, display.
      destruct (get_loop (Snapshots c) (Args c) [] w) as [[[l|e] w1] t1];
        cbn in Honly.
      * destruct (Display c l w1) as [e w2]. cbn. intros Hin.
        apply in_app_or in Hin. destruct Hin as [Hin|[Hin|[]]].
        -- destruct (Honly _ Hin) as [k [o Hev]]. discriminate Hev.
        -- discriminate Hin.
      * cbn. intros Hin. destruct (Honly _ Hin) as [k [o Hev]]. discriminate Hev.
Qed.

(** ** RunSnapshotDelete: flag, prompt and deletions *)

(** X5.  When the force flag cannot be read, [RunSnapshotDelete] returns
    the error of the lookup: the user is not asked and nothing is deleted. *)
Theorem RunSnapshotDelete_flag_error (c : CmdConfig W) (w : W) (e : error) :
  Args c <> [] ->
  GetBool (Doit c) (NS c) ArgForce = Err e ->
  RunSnapshotDelete c w = (Err e, w, []).
Proof.
  intros Hargs Hforce. unfold RunSnapshotDelete. rewrite length_eqb_0.
  destruct (Args c); [congruence|]. rewrite Hforce. apply bind_lift_Err.
Qed.

(** X6.  When the deletion goes ahead (force flag, or the user agrees) and
    every [Delete] call succeeds, [RunSnapshotDelete] returns [nil] after
    exactly one [Delete] call per argument, in argument order; it displays
    nothing. *)
Theorem RunSnapshotDelete_all_deleted (c : CmdConfig W) (w w0 w1 : W)
  (t0 : list event) :
  Args c <> [] ->
  proceeds c w w0 t0 ->
  succeed_deletes (Snapshots c) (Args c) w0 w1 ->
  RunSnapshotDelete c w = (Ok tt, w1, t0 ++ deleted (Args c)).
Proof.
  intros Hargs Hgo Hdels.
  rewrite (RunSnapshotDelete_proceeds c w w0 t0 Hargs Hgo).
  rewrite (delete_loop_all _ _ _ _ Hdels). reflexivity.
Qed.

(** X7.  The prompt of [RunSnapshotDelete]: with the force flag set the
    user is never asked; with it unset the user is asked exactly once,
    before any deletion, about "snapshot" and the number of arguments.
    Everything else the command does is [Delete] calls for its arguments. *)
Theorem RunSnapshotDelete_prompt (c : CmdConfig W) (w : W) (force : bool) :
  Args c <> [] ->
  GetBool (Doit c) (NS c) ArgForce = Ok force ->
  exists t,
    (forall ev, In ev t ->
                exists id o, ev = ApiCall (CallDelete id) o /\ In id (Args c))
    /\ trace_of (RunSnapshotDelete c w)
       = if force then t
         else Prompt "snapshot" (length (Args c))
                (fst (AskForConfirmDelete "snapshot" (length (Args c)) w)) :: t.
Proof.
  intros Hargs Hforce. unfold RunSnapshotDelete. rewrite length_eqb_0.
  destruct (Args c) as [|id ids] eqn:HA; [congruence|].
  rewrite Hforce, bind_lift_Ok. destruct force.
  - rewrite bind_ret.
    exists (trace_of (delete_loop (Snapshots c) (id :: ids) w)).
    split; [apply delete_loop_events|reflexivity].
  - unfold bind at 1. unfold bind at 1. unfold confirm, ret.
    destruct (AskForConfirmDelete "snapshot" (length (id :: ids)) w)
      as [[e|] w1]; cbn [fst].
    + exists []. split; [intros ev []|reflexivity].
    + exists (trace_of (delete_loop (Snapshots c) (id :: ids) w1)).
      split; [apply delete_loop_events|].
      destruct (delete_loop (Snapshots c) (id :: ids) w1) as [[r w2] t].
      reflexivity.
Qed.

(** X8.  Whatever the flags and the answers, [RunSnapshotDelete] never
    lists, gets or displays: each of its interactions is the prompt or a
    [Delete] call for one of its arguments. *)
Theorem RunSnapshotDelete_only_deletes (c : CmdConfig W) (w : W) (ev : event) :
  In ev (trace_of (RunSnapshotDelete c w)) ->
  (exists answer, ev = Prompt "snapshot" (length (Args c)) answer)
  \/ (exists id o, ev = ApiCall (CallDelete id) o /\ In id (Args c)).
Proof.
  unfold RunSnapshotDelete.
  destruct (Nat.eqb (length (Args c)) 0); [intros []|].
  destruct (GetBool (Doit c) (NS c) ArgForce) as [force|e];
    [rewrite bind_lift_Ok|intros []].
  destruct force.
  - rewrite bind_ret. intros Hin. right.
    exact (delete_loop_events _ _ _ _ Hin).
  - unfold bind at 1. unfold bind at 1. unfold confirm, ret.
    destruct (AskForConfirmDelete "snapshot" (length (Args c)) w) as [[e|] w1].
    + cbn. intros [<-|[]]. left. eauto.
    + pose proof (delete_loop_events (Snapshots c) (Args c) w1 ev) as Hloop.
      destruct (delete_loop (Snapshots c) (Args c) w1) as [[r w2] t].
      cbn in *. intros [<-|Hin]; [left; eauto|right; auto].
Qed.

(** ** The glob arguments *)

Lemma compile_cases (args : list string) :
  (exists globs, map Compile args = map Ok globs)
  \/ (exists pre globStr post globs e,
        args = pre ++ globStr :: post
        /\ map Compile pre = map Ok globs
        /\ Compile globStr = Err e).
Proof.
  induction args as [|a args IH].
  - left. exists []. reflexivity.
  - destruct (Compile a) as [g|e] eqn:Ha.
    + destruct IH as [[globs Hall]|[pre [globStr [post [globs [e [Hsplit [Hpre Hbad]]]]]]]].
      * left. exists (g :: globs). cbn. now rewrite Ha, Hall.
      * right. exists (a :: pre), globStr, post, (g :: globs), e.
        repeat split; [now rewrite Hsplit|cbn; now rewrite Ha, Hpre|exact Hbad].
    + right. exists [], a, args, [], e. repeat split. exact Ha.
Qed.

(** X9.  The loop that compiles the positional arguments has two outcomes
    only: the compiled globs, one per argument and in argument order, or
    the "unknown glob" error naming the first argument that does not
    compile.  The error of the glob library itself is never returned. *)
Theorem compile_loop_outcome (args : list string) :
  (exists globs,
      compile_loop args [] = Ok globs
      /\ map Compile args = map Ok globs
      /\ length globs = length args)
  \/ (exists pre globStr post globs e,
        args = pre ++ globStr :: post
        /\ map Compile pre = map Ok globs
        /\ Compile globStr = Err e
        /\ compile_loop args [] = Err (Errorf "unknown glob %q" [globStr])).
Proof.
  destruct (compile_cases args)
    as [[globs Hall]|[pre [globStr [post [globs [e [Hsplit [Hpre Hbad]]]]]]]].
  - left. exists globs. repeat split.
    + exact (compile_loop_all args globs [] Hall).
    + exact Hall.
    + apply (f_equal (@length _)) in Hall. now rewrite !length_map in Hall.
  - right. exists pre, globStr, post, globs, e. repeat split; try assumption.
    rewrite Hsplit.
    exact (compile_loop_first_failure pre globs [] globStr post e Hpre Hbad).
Qed.

(** ** The filter: more globs, other orders *)

Lemma existsb_Permutation {A : Type} (f : A -> bool) (l l' : list A) :
  Permutation l l' -> existsb f l = existsb f l'.
Proof.
  induction 1 as [|x l l' _ IH|x y l|l l' l'' _ IH1 _ IH2]; cbn.
  - reflexivity.
  - now rewrite IH.
  - destruct (f x), (f y); reflexivity.
  - congruence.
Qed.

Lemma negb_inj (a b : bool) : negb a = negb b -> a = b.
Proof. destruct a, b; cbn; congruence. Qed.

(** X10.  Globs are alternatives: once at least one glob is given, giving
    more globs never hides a snapshot that was shown. *)
Theorem more_globs_show_more (globs more : list Glob) (region : string) (s : Snapshot) :
  globs <> [] ->
  skip_snapshot globs region s = false ->
  skip_snapshot (globs ++ more) region s = false.
Proof.
  intros Hne Hshown.
  apply (f_equal negb) in Hshown. rewrite skip_snapshot_spec in Hshown.
  apply negb_inj. rewrite skip_snapshot_spec. cbn [negb] in *.
  apply andb_true_iff in Hshown. destruct Hshown as [Hsel Hreg].
  rewrite Hreg, andb_true_r.
  destruct globs as [|g globs]; [congruence|].
  cbn [glob_selects app] in *.
  change (g :: globs ++ more) with ((g :: globs) ++ more).
  rewrite existsb_app, Hsel. reflexivity.
Qed.

(** X11.  The order in which the globs are given does not matter: a
    snapshot is skipped for a list of globs exactly when it is skipped for
    any rearrangement of that list. *)
Theorem glob_order_irrelevant (globs globs' : list Glob) (region : string)
  (s : Snapshot) :
  Permutation globs globs' ->
  skip_snapshot globs region s = skip_snapshot globs' region s.
Proof.
  intros Hperm. apply negb_inj. rewrite !skip_snapshot_spec. f_equal.
  unfold glob_selects.
  destruct globs as [|g gs], globs' as [|g' gs'].
  - reflexivity.
  - apply Permutation_length in Hperm. discriminate Hperm.
  - apply Permutation_length in Hperm. discriminate Hperm.
  - exact (existsb_Permutation _ _ _ Hperm).
Qed.

(** X12.  The region filter looks at the set of regions of a snapshot, not
    at their order: two snapshots with the same ID and name whose region
    lists are rearrangements of each other are skipped alike. *)
Theorem region_order_irrelevant (globs : list Glob) (region : string)
  (s s' : Snapshot) :
  ID s = ID s' ->
  Name s = Name s' ->
  Permutation (Regions s) (Regions s') ->
  skip_snapshot globs region s = skip_snapshot globs region s'.
Proof.
  intros Hid Hname Hperm. apply negb_inj. rewrite !skip_snapshot_spec.
  assert (Hsel : glob_selects globs s = glob_selects globs s').
  { unfold glob_selects. rewrite Hid, Hname. reflexivity. }
  assert (Hreg : region_allows region s = region_allows region s').
  { unfold region_allows.
    destruct (Regions s) as [|r rs] eqn:Hs, (Regions s') as [|r' rs'] eqn:Hs'.
    - reflexivity.
    - apply Permutation_length in Hperm. discriminate Hperm.
    - apply Permutation_length in Hperm. discriminate Hperm.
    - exact (existsb_Permutation _ _ _ Hperm). }
  now rewrite Hsel, Hreg.
Qed.

End MoreFacts.

(** * The fake API server of the droplet-create test *)

Section ServerFacts.

Import DropletCreateServer.

Variable unmarshalDropletRequest : string -> result string.
Variable unmarshalAssignResources : string -> result (list string).

(** X13.  On the two guarded paths, a request is refused unless it carries
    the bearer token and is a POST.  The token is checked first, so a
    request with a wrong token gets 401 whatever its method; with the right
    token, any method other than POST gets 405.  A refused request is
    answered by the status alone and captures nothing. *)
Theorem guarded_paths_refuse (req : Request) (cap : Captured) :
  guarded (Path req) = true ->
  (Authorization req <> "Bearer some-magic-token" ->
   handler unmarshalDropletRequest unmarshalAssignResources req cap
   = ([WriteHeader StatusUnauthorized], cap, false))
  /\ (Authorization req = "Bearer some-magic-token" ->
      Method req <> MethodPost ->
      handler unmarshalDropletRequest unmarshalAssignResources req cap
      = ([WriteHeader StatusMethodNotAllowed], cap, false)).
Proof.
  unfold guarded, handler. intros Hpath. split.
  - intros Hauth. apply String.eqb_neq in Hauth. rewrite Hauth. cbn [negb].
    destruct (Path req =? "/v2/droplets")%string; [reflexivity|].
    cbn [orb] in Hpath.
    destruct (Path req =? "/poll-for-droplet")%string eqn:H1;
      [apply String.eqb_eq in H1; rewrite H1 in Hpath; discriminate Hpath|].
    destruct (Path req =? "/v2/droplets/777")%string eqn:H2;
      [apply String.eqb_eq in H2; rewrite H2 in Hpath; discriminate Hpath|].
    destruct (Path req =? "/v2/projects/00000000-0000-4000-8000-000000000000")%string
      eqn:H3;
      [apply String.eqb_eq in H3; rewrite H3 in Hpath; discriminate Hpath|].
    rewrite Hpath. reflexivity.
  - intros Hauth Hmethod. apply String.eqb_neq in Hmethod.
    rewrite Hauth, Hmethod. cbn [String.eqb Ascii.eqb Bool.eqb negb].
    destruct (Path req =? "/v2/droplets")%string; [reflexivity|].
    cbn [orb] in Hpath.
    destruct (Path req =? "/poll-for-droplet")%string eqn:H1;
      [apply String.eqb_eq in H1; rewrite H1 in Hpath; discriminate Hpath|].
    destruct (Path req =? "/v2/droplets/777")%string eqn:H2;
      [apply String.eqb_eq in H2; rewrite H2 in Hpath; discriminate Hpath|].
    destruct (Path req =? "/v2/projects/00000000-0000-4000-8000-000000000000")%string
      eqn:H3;
      [apply String.eqb_eq in H3; rewrite H3 in Hpath; discriminate Hpath|].
    rewrite Hpath. reflexivity.
Qed.

(** X14.  The suite variables record authorized POST bodies only: if a
    request changes [reqBody], it is a POST to /v2/droplets with the
    token, and [reqBody] is now the body read from it; likewise for
    [assignResourcesReqBody] and the project resources path.  No request
    changes both. *)
Theorem captured_by_authorized_post_only (req : Request) (cap : Captured) :
  let cap' := snd (fst (handler unmarshalDropletRequest unmarshalAssignResources
                          req cap)) in
  (reqBody cap' <> reqBody cap ->
   Path req = "/v2/droplets"
   /\ Authorization req = "Bearer some-magic-token"
   /\ Method req = MethodPost
   /\ reqBody cap' = fst (Body req)
   /\ assignResourcesReqBody cap' = assignResourcesReqBody cap)
  /\ (assignResourcesReqBody cap' <> assignResourcesReqBody cap ->
      Path req = "/v2/projects/00000000-0000-4000-8000-000000000000/resources"
      /\ Authorization req = "Bearer some-magic-token"
      /\ Method req = MethodPost
      /\ assignResourcesReqBody cap' = fst (Body req)
      /\ reqBody cap' = reqBody cap).
Proof.
  cbv zeta. unfold handler.
  destruct (Path req =? "/v2/droplets")%string eqn:Hp1.
  - apply String.eqb_eq in Hp1.
    destruct (Authorization req =? "Bearer some-magic-token")%string eqn:Ha;
      cbn [negb]; [|split; intros H; now elim H].
    destruct (Method req =? MethodPost)%string eqn:Hm;
      cbn [negb]; [|split; intros H; now elim H].
    apply String.eqb_eq in Ha, Hm.
    assert (Hcap : forall (ws : list write) (failed : bool),
               let cap' := snd (fst (ws, mkCaptured (fst (Body req))
                                           (assignResourcesReqBody cap), failed)) in
               reqBody cap' = fst (Body req)
               /\ assignResourcesReqBody cap' = assignResourcesReqBody cap)
      by (intros; split; reflexivity).
    destruct (snd (Body req));
      [|destruct (unmarshalDropletRequest (fst (Body req))) as [name|];
        [destruct (name =? "waiting-on-name")%string|]];
      (split; [intros _; repeat split; assumption|intros H; now elim H]).
  - destruct (Path req =? "/poll-for-droplet")%string;
      [split; intros H; now elim H|].
    destruct (Path req =? "/v2/droplets/777")%string;
      [split; intros H; now elim H|].
    destruct (Path req =? "/v2/projects/00000000-0000-4000-8000-000000000000")%string;
      [split; intros H; now elim H|].
    destruct (Path req
              =? "/v2/projects/00000000-0000-4000-8000-000000000000/resources")%string
      eqn:Hp5; [|split; intros H; now elim H].
    apply String.eqb_eq in Hp5.
    destruct (Authorization req =? "Bearer some-magic-token")%string eqn:Ha;
      cbn [negb]; [|split; intros H; now elim H].
    destruct (Method req =? MethodPost)%string eqn:Hm;
      cbn [negb]; [|split; intros H; now elim H].
    apply String.eqb_eq in Ha, Hm.
    destruct (snd (Body req));
      [|destruct (unmarshalAssignResources (fst (Body req))) as [[|first rest]|];
        [|destruct (first =? "do:droplet:1111")%string|]];
      (split; [intros H; now elim H|intros _; repeat split; assumption]).
Qed.

(** X15.  The handler never answers a request that it fails the test on:
    when an assertion of the handler does not hold, or the path is unknown,
    nothing has been written to the response. *)
Theorem failed_request_unanswered (req : Request) (cap : Captured) :
  snd (handler unmarshalDropletRequest unmarshalAssignResources req cap) = true ->
  fst (fst (handler unmarshalDropletRequest unmarshalAssignResources req cap)) = [].
Proof.
  unfold handler.
  repeat match goal with
         | |- context [if ?b then _ else _] => destruct b
         | |- context [match ?x with _ => _ end] => destruct x
         end; cbn; congruence.
Qed.

End ServerFacts.

(** ** The further properties at work on the doubles *)


Lemma RunSnapshotList_flag_error_witness :
  RunSnapshotList
    (mkCmdConfig Mock.World "snapshot"
       (mkConfig (fun _ _ => Err (ExternalErr "flag accessed but not defined"))
                 (fun _ _ => Ok false))
       ["*"] Mock.service Mock.show)
    Mock.account
  = (Err (ExternalErr "flag accessed but not defined"), Mock.account, []).
Proof.
  apply RunSnapshotList_flag_error. left. reflexivity.
Defined.


Lemma RunSnapshotDelete_flag_error_witness :
  RunSnapshotDelete
    (mkCmdConfig Mock.World "snapshot"
       (mkConfig (fun _ _ => Ok "")
                 (fun _ _ => Err (ExternalErr "flag accessed but not defined")))
       ["1"] Mock.service Mock.show)
    Mock.account
  = (Err (ExternalErr "flag accessed but not defined"), Mock.account, []).
Proof.
  apply RunSnapshotDelete_flag_error; [discriminate|reflexivity].
Defined.

Lemma RunSnapshotDelete_all_deleted_witness :
  RunSnapshotDelete (Mock.cmd [] ["2"; "1"]) (Mock.mkWorld [Mock.s1; Mock.s2; Mock.s3] ["y"])
  = (Ok tt, Mock.mkWorld [Mock.s3] [],
     [Prompt "snapshot" 2 None;
      ApiCall (CallDelete "2") None; ApiCall (CallDelete "1") None]).
Proof.
  refine (RunSnapshotDelete_all_deleted (Mock.cmd [] ["2"; "1"])
            (Mock.mkWorld [Mock.s1; Mock.s2; Mock.s3] ["y"])
            (Mock.mkWorld [Mock.s1; Mock.s2; Mock.s3] [])
            (Mock.mkWorld [Mock.s3] [])
            [Prompt "snapshot" 2 None] _ _ _).
  - discriminate.
  - apply (proceeds_confirm (Mock.cmd [] ["2"; "1"])); reflexivity.
  - repeat (eapply succeed_deletes_cons; [reflexivity|]). apply succeed_deletes_nil.
Defined.

Lemma RunSnapshotDelete_prompt_witness :
  exists t,
    (forall ev, In ev t ->
                exists id o, ev = ApiCall (CallDelete id) o /\ In id ["2"; "1"])
    /\ trace_of (RunSnapshotDelete (Mock.cmd [] ["2"; "1"]) Mock.account)
       = Prompt "snapshot" 2 (Some (ExternalErr "invalid response")) :: t.
Proof.
  refine (RunSnapshotDelete_prompt (Mock.cmd [] ["2"; "1"]) Mock.account false
            _ eq_refl).
  discriminate.
Defined.

Lemma RunSnapshotDelete_only_deletes_witness :
  (exists answer, ApiCall (CallDelete "1") None = Prompt "snapshot" 2 answer)
  \/ (exists id o, ApiCall (CallDelete "1") None = ApiCall (CallDelete id) o
                   /\ In id ["2"; "1"]).
Proof.
  refine (RunSnapshotDelete_only_deletes
            (Mock.cmd [("force", "true")] ["2"; "1"]) Mock.account
            (ApiCall (CallDelete "1") None) _).
  right. left. reflexivity.
Defined.

Lemma more_globs_show_more_witness :
  skip_snapshot (E := Mock.env) (["web-backup"] ++ ["2"]) "" Mock.s1 = false.
Proof.
  refine (more_globs_show_more (E := Mock.env) ["web-backup"] ["2"] "" Mock.s1
            _ eq_refl).
  discriminate.
Defined.

Lemma glob_order_irrelevant_witness :
  skip_snapshot (E := Mock.env) ["2"; "web-backup"] "nyc1" Mock.s1
  = skip_snapshot (E := Mock.env) ["web-backup"; "2"] "nyc1" Mock.s1.
Proof.
  refine (glob_order_irrelevant (E := Mock.env) ["2"; "web-backup"]
            ["web-backup"; "2"] "nyc1" Mock.s1 _).
  apply perm_swap.
Defined.

Lemma region_order_irrelevant_witness :
  skip_snapshot (E := Mock.env) [] "sfo2" Mock.s1
  = skip_snapshot (E := Mock.env) [] "sfo2"
      (mkSnapshot "1" "web-backup" ["sfo2"; "nyc1"]).
Proof.
  refine (region_order_irrelevant (E := Mock.env) [] "sfo2" Mock.s1
            (mkSnapshot "1" "web-backup" ["sfo2"; "nyc1"]) eq_refl eq_refl _).
  apply perm_swap.
Defined.

Lemma guarded_paths_refuse_witness :
  DropletCreateServer.handler (fun body => Ok body) (fun body => Ok [body])
    (DropletCreateServer.mkRequest "/v2/droplets" "Bearer stolen" "GET" ("", None))
    (DropletCreateServer.mkCaptured "" "")
  = ([DropletCreateServer.WriteHeader 401], DropletCreateServer.mkCaptured "" "", false).
Proof.
  refine (proj1 (guarded_paths_refuse (fun body => Ok body) (fun body => Ok [body])
                   (DropletCreateServer.mkRequest "/v2/droplets" "Bearer stolen" "GET"
                      ("", None))
                   (DropletCreateServer.mkCaptured "" "") eq_refl) _).
  discriminate.
Defined.

Lemma captured_by_authorized_post_only_witness :
  "/v2/droplets" = "/v2/droplets"
  /\ "Bearer some-magic-token" = "Bearer some-magic-token"
  /\ "POST" = DropletCreateServer.MethodPost
  /\ "some-droplet-name" = "some-droplet-name"
  /\ "" = "".
Proof.
  refine (proj1 (captured_by_authorized_post_only
                   (fun body => Ok body) (fun body => Ok [body])
                   (DropletCreateServer.mkRequest "/v2/droplets"
                      "Bearer some-magic-token" "POST" ("some-droplet-name", None))
                   (DropletCreateServer.mkCaptured "" "")) _).
  discriminate.
Defined.

Lemma failed_request_unanswered_witness :
  fst (fst (DropletCreateServer.handler (fun body => Ok body) (fun body => Ok [body])
              (DropletCreateServer.mkRequest "/v2/sizes" "" "GET" ("", None))
              (DropletCreateServer.mkCaptured "" "")))
  = [].
Proof.
  exact (failed_request_unanswered (fun body => Ok body) (fun body => Ok [body])
           (DropletCreateServer.mkRequest "/v2/sizes" "" "GET" ("", None))
           (DropletCreateServer.mkCaptured "" "") eq_refl).
Defined.

(** * Outcomes stated on the answers of the collaborators *)

Section Anchored.

Context {W : Type} {E : Env W}.

(** ** The list call of RunSnapshotList *)

Lemma fetch_droplet (ss : SnapshotsService W) (region : string) (w : W) :
  fetch ss "droplet" region w = api CallListDroplet (ListDroplet ss) w.
Proof. reflexivity. Qed.

Lemma fetch_volume_by_region (ss : SnapshotsService W) (region : string) (w : W) :
  region <> "" ->
  fetch ss "volume" region w
  = api (CallListVolumeSnapshotByRegion region) (ListVolumeSnapshotByRegion ss region) w.
Proof.
  intros Hne. apply String.eqb_neq in Hne. unfold fetch. rewrite Hne. reflexivity.
Qed.

Lemma fetch_volume (ss : SnapshotsService W) (w : W) :
  fetch ss "volume" "" w = api CallListVolume (ListVolume ss) w.
Proof. reflexivity. Qed.

Lemma fetch_any (ss : SnapshotsService W) (restype region : string) (w : W) :
  restype <> "droplet" -> restype <> "volume" ->
  fetch ss restype region w = api CallList (List ss) w.
Proof.
  intros Hd Hv. apply String.eqb_neq in Hd, Hv. unfold fetch.
  rewrite Hd, Hv. reflexivity.
Qed.

(** Whatever the list call is, the command is what [listed] makes of its
    answer. *)
Lemma RunSnapshotList_listed (c : CmdConfig W) (w : W) (restype region : string)
  (globs : list Glob) (k : call) (op : W -> result (list Snapshot) * W) :
  GetString (Doit c) (NS c) ArgResourceType = Ok restype ->
  GetString (Doit c) (NS c) ArgRegionSlug = Ok region ->
  map Compile (Args c) = map Ok globs ->
  fetch (Snapshots c) restype region w = api k op w ->
  RunSnapshotList c w = listed c globs region k (op w).
Proof.
  intros Hres Hreg Hglobs Hfetch.
  destruct (op w) as [[l|e] w1] eqn:Hop.
  - rewrite (api_Ok k op w w1 l Hop) in Hfetch.
    rewrite (RunSnapshotList_fetched c w w1 restype region globs l _
               Hres Hreg Hglobs Hfetch).
    reflexivity.
  - rewrite (api_Err k op w w1 e Hop) in Hfetch.
    rewrite (RunSnapshotList_fetch_failed c w w1 restype region globs e _
               Hres Hreg Hglobs Hfetch).
    reflexivity.
Qed.

(** X1.  Once the flags are read and the globs compiled, the outcome of
    [RunSnapshotList] is decided by the answer of one method of the
    service, chosen by the resource type: [ListDroplet] for "droplet" (the
    region is not sent), [ListVolumeSnapshotByRegion] with the region for
    "volume" when a region is given and [ListVolume] when none is, and
    [List] for every other resource type, the empty one included.  An error
    of that method is returned; a list is filtered and displayed. *)
Theorem RunSnapshotList_call_by_resource_type (c : CmdConfig W) (w : W)
  (restype region : string) (globs : list Glob) :
  GetString (Doit c) (NS c) ArgResourceType = Ok restype ->
  GetString (Doit c) (NS c) ArgRegionSlug = Ok region ->
  map Compile (Args c) = map Ok globs ->
  (restype = "droplet" ->
   RunSnapshotList c w
   = listed c globs region CallListDroplet (ListDroplet (Snapshots c) w))
  /\ (restype = "volume" -> region <> "" ->
      RunSnapshotList c w
      = listed c globs region (CallListVolumeSnapshotByRegion region)
          (ListVolumeSnapshotByRegion (Snapshots c) region w))
  /\ (restype = "volume" -> region = "" ->
      RunSnapshotList c w
      = listed c globs region CallListVolume (ListVolume (Snapshots c) w))
  /\ (restype <> "droplet" -> restype <> "volume" ->
      RunSnapshotList c w
      = listed c globs region CallList (List (Snapshots c) w)).
Proof.
  intros Hres Hreg Hglobs. repeat split.
  - intros Hd. subst restype.
    apply (RunSnapshotList_listed c w "droplet" region globs _ _ Hres Hreg Hglobs).
    apply fetch_droplet.
  - intros Hv Hne. subst restype.
    apply (RunSnapshotList_listed c w "volume" region globs _
             (ListVolumeSnapshotByRegion (Snapshots c) region) Hres Hreg Hglobs).
    now apply fetch_volume_by_region.
  - intros Hv Hempty. subst restype region.
    apply (RunSnapshotList_listed c w "volume" "" globs _ _ Hres Hreg Hglobs).
    apply fetch_volume.
  - intros Hd Hv.
    apply (RunSnapshotList_listed c w restype region globs _ _ Hres Hreg Hglobs).
    now apply fetch_any.
Qed.

(** ** Errors of the service *)

(** C7.  When the service fails, the command returns the very error value
    that the service produced.  For [RunSnapshotList] the failing method is
    the one that the resource type selects; for [RunSnapshotGet] and
    [RunSnapshotDelete] it is the [Get] or [Delete] of the first ID whose
    call fails, reached after the calls for the earlier IDs succeeded. *)
Theorem api_errors_pass_through (c : CmdConfig W) (w : W) (e : error) :
  (forall restype region globs w1,
      GetString (Doit c) (NS c) ArgResourceType = Ok restype ->
      GetString (Doit c) (NS c) ArgRegionSlug = Ok region ->
      map Compile (Args c) = map Ok globs ->
      (restype = "droplet" ->
       ListDroplet (Snapshots c) w = (Err e, w1) ->
       returned (RunSnapshotList c w) = Some e)
      /\ (restype = "volume" -> region <> "" ->
          ListVolumeSnapshotByRegion (Snapshots c) region w = (Err e, w1) ->
          returned (RunSnapshotList c w) = Some e)
      /\ (restype = "volume" -> region = "" ->
          ListVolume (Snapshots c) w = (Err e, w1) ->
          returned (RunSnapshotList c w) = Some e)
      /\ (restype <> "droplet" -> restype <> "volume" ->
          List (Snapshots c) w = (Err e, w1) ->
          returned (RunSnapshotList c w) = Some e))
  /\ (forall pre id post l w1 w2,
        Args c = pre ++ id :: post ->
        succeed_gets (Snapshots c) pre w l w1 ->
        Get (Snapshots c) id w1 = (Err e, w2) ->
        returned (RunSnapshotGet c w) = Some e)
  /\ (forall pre id post w0 t0 w1 w2,
        Args c = pre ++ id :: post ->
        proceeds c w w0 t0 ->
        succeed_deletes (Snapshots c) pre w0 w1 ->
        Delete (Snapshots c) id w1 = (Some e, w2) ->
        returned (RunSnapshotDelete c w) = Some e).
Proof.
  split; [|split].
  - intros restype region globs w1 Hres Hreg Hglobs. repeat split.
    + intros Hd Hfail. subst restype.
      rewrite (RunSnapshotList_listed c w "droplet" region globs _ _
                 Hres Hreg Hglobs (fetch_droplet _ _ _)), Hfail.
      reflexivity.
    + intros Hv Hne Hfail. subst restype.
      rewrite (RunSnapshotList_listed c w "volume" region globs _
                 (ListVolumeSnapshotByRegion (Snapshots c) region)
                 Hres Hreg Hglobs (fetch_volume_by_region _ _ _ Hne)), Hfail.
      reflexivity.
    + intros Hv Hempty Hfail. subst restype region.
      rewrite (RunSnapshotList_listed c w "volume" "" globs _ _
                 Hres Hreg Hglobs (fetch_volume _ _)), Hfail.
      reflexivity.
    + intros Hd Hv Hfail.
      rewrite (RunSnapshotList_listed c w restype region globs _ _
                 Hres Hreg Hglobs (fetch_any _ _ _ _ Hd Hv)), Hfail.
      reflexivity.
  - intros pre id post l w1 w2 HA Hgets Hfail.
    unfold RunSnapshotGet. rewrite length_eqb_0, HA.
    destruct (pre ++ id :: post) as [|i rest] eqn:Hsplit;
      [now destruct pre|].
    rewrite <- Hsplit.
    rewrite (bind_Err _ _ w w2 e _
               (get_loop_first_failure _ _ _ _ _ Hgets id post e w2 [] Hfail)).
    reflexivity.
  - intros pre id post w0 t0 w1 w2 HA Hgo Hdels Hfail.
    assert (Hne : Args c <> []) by (rewrite HA; now destruct pre).
    rewrite (RunSnapshotDelete_proceeds c w w0 t0 Hne Hgo), HA.
    rewrite (delete_loop_first_failure _ _ _ _ Hdels id post e w2 Hfail).
    reflexivity.
Qed.

(** ** The deletions of RunSnapshotDelete *)

Lemma delete_cases (ss : SnapshotsService W) (ids : list string) :
  forall w,
    (exists w1, succeed_deletes ss ids w w1)
    \/ (exists pre id post e w1 w2,
          ids = pre ++ id :: post
          /\ succeed_deletes ss pre w w1
          /\ Delete ss id w1 = (Some e, w2)).
Proof.
  induction ids as [|i rest IH]; intros w.
  - left. exists w. constructor.
  - destruct (Delete ss i w) as [[e|] w1] eqn:Hdel.
    + right. exists [], i, rest, e, w, w1. repeat split; [constructor|exact Hdel].
    + destruct (IH w1)
        as [[w2 Hall]|[pre [id [post [e [w2 [w3 [Hsplit [Hpre Hfail]]]]]]]]].
      * left. exists w2. econstructor; eassumption.
      * right. exists (i :: pre), id, post, e, w2, w3.
        repeat split; [now rewrite Hsplit|econstructor; eassumption|exact Hfail].
Qed.

(** C4, as the code has it.  [RunSnapshotList] and [RunSnapshotGet] make no
    mutating call.  [RunSnapshotDelete], once the deletion goes ahead (force
    flag, or the user agrees), calls [Delete] of the service once per
    argument, in argument order, each call in the world left by the one
    before: either every call succeeds and the command returns [nil] after
    one deletion per argument, or it stops at the first call that fails,
    after the deletions for the arguments before it and none for those
    after it, and returns that error.  In every run the mutating calls are
    for an initial segment of the arguments, so they are at most as many
    as the arguments. *)
Theorem mutations_per_invocation (c : CmdConfig W) (w : W) :
  mutations (trace_of (RunSnapshotList c w)) = []
  /\ mutations (trace_of (RunSnapshotGet c w)) = []
  /\ (forall w0 t0,
        Args c <> [] ->
        proceeds c w w0 t0 ->
        (exists w1,
            succeed_deletes (Snapshots c) (Args c) w0 w1
            /\ RunSnapshotDelete c w = (Ok tt, w1, t0 ++ deleted (Args c))
            /\ mutations (trace_of (RunSnapshotDelete c w)) = Args c)
        \/ (exists pre id post e w1 w2,
              Args c = pre ++ id :: post
              /\ succeed_deletes (Snapshots c) pre w0 w1
              /\ Delete (Snapshots c) id w1 = (Some e, w2)
              /\ RunSnapshotDelete c w
                 = (Err e, w2, t0 ++ deleted pre ++ [ApiCall (CallDelete id) (Some e)])
              /\ mutations (trace_of (RunSnapshotDelete c w)) = pre ++ [id]))
  /\ (exists n, mutations (trace_of (RunSnapshotDelete c w)) = firstn n (Args c))
  /\ length (mutations (trace_of (RunSnapshotDelete c w))) <= length (Args c).
Proof.
  destruct (mutations_shape c w) as [HL [HG [HD Hlen]]].
  split; [exact HL|]. split; [exact HG|]. split; [|split; assumption].
  intros w0 t0 Hne Hgo.
  assert (Ht0 : mutations t0 = []) by (destruct Hgo; reflexivity).
  assert (Hdeleted : forall ids, mutations (deleted ids) = ids).
  { unfold deleted. induction ids as [|i ids IH]; cbn; [|rewrite IH]; reflexivity. }
  rewrite (RunSnapshotDelete_proceeds c w w0 t0 Hne Hgo).
  destruct (delete_cases (Snapshots c) (Args c) w0)
    as [[w1 Hall]|[pre [id [post [e [w1 [w2 [Hsplit [Hpre Hfail]]]]]]]]].
  - left. exists w1. rewrite (delete_loop_all _ _ _ _ Hall). cbn [fst snd trace_of].
    repeat split; [exact Hall|].
    now rewrite mutations_app, Ht0, Hdeleted.
  - right. exists pre, id, post, e, w1, w2. rewrite Hsplit.
    rewrite (delete_loop_first_failure _ _ _ _ Hpre id post e w2 Hfail).
    cbn [fst snd trace_of].
    repeat split; [exact Hpre|exact Hfail|].
    rewrite !mutations_app, Ht0, Hdeleted. reflexivity.
Qed.

End Anchored.

(** ** The poller, against the answers of the accessor *)

Section PollerRuns.

Context {W State : Type}.
Variable fetch_state : string -> W -> State * W.
Variable terminal : State -> bool.
Variable interval : nat.

Lemma observe_S (n : nat) (id : string) (w w1 w2 : W) (s : State) (l : list State) :
  fetch_state id w = (s, w1) ->
  Poller.observe fetch_state n id w1 = (l, w2) ->
  Poller.observe fetch_state (S n) id w = (s :: l, w2).
Proof. intros Hs Hl. cbn [Poller.observe]. now rewrite Hs, Hl. Qed.

Lemma observe_length (n : nat) (id : string) :
  forall w, length (fst (Poller.observe fetch_state n id w)) = n.
Proof.
  induction n as [|n IH]; intros w; [reflexivity|].
  cbn [Poller.observe]. destruct (fetch_state id w) as [s w1].
  specialize (IH w1). destruct (Poller.observe fetch_state n id w1) as [l w2].
  cbn in *. now rewrite IH.
Qed.

(** C6.  Every run of the poller ends, in one of two ways, both read
    against the answers of the accessor to successive requests for the
    given identifier, each request made in the world left by the one
    before.  Either one of the first [attempts] answers is terminal: the
    poller has then fetched the answers up to the first terminal one,
    pausing for the fixed interval after each non-terminal answer, and
    returns that terminal state, the last one fetched.  Or none of them
    is: the poller has then fetched exactly [attempts] answers, pausing for
    the fixed interval after each, and returns the timeout. *)
Theorem poll_outcome (attempts : nat) (id : string) (w : W) :
  (exists k init s w1,
      k < attempts
      /\ Poller.observe fetch_state (S k) id w = (init ++ [s], w1)
      /\ length init = k
      /\ Forall (fun x => terminal x = false) init
      /\ terminal s = true
      /\ Poller.poll fetch_state terminal interval attempts id w
         = (Poller.Final s, w1,
            Poller.waited interval init ++ [Poller.Fetched s]))
  \/ (exists l w1,
        Poller.observe fetch_state attempts id w = (l, w1)
        /\ length l = attempts
        /\ Forall (fun x => terminal x = false) l
        /\ Poller.poll fetch_state terminal interval attempts id w
           = (Poller.Timeout, w1, Poller.waited interval l)).
Proof.
  revert w. induction attempts as [|n IH]; intros w.
  - right. exists [], w. repeat split. constructor.
  - cbn [Poller.poll]. destruct (fetch_state id w) as [s w1] eqn:Hs.
    destruct (terminal s) eqn:Hts.
    + left. exists 0, [], s, w1. repeat split.
      * lia.
      * exact (observe_S 0 id w w1 w1 s [] Hs eq_refl).
      * constructor.
      * exact Hts.
    + destruct (IH w1)
        as [[k [init [s' [w2 [Hk [Hobs [Hlen [Hinit [Hs' Hpoll]]]]]]]]]
           |[l [w2 [Hobs [Hlen [Hall Hpoll]]]]]]; rewrite Hpoll.
      * left. exists (S k), (s :: init), s', w2. repeat split.
        -- lia.
        -- exact (observe_S (S k) id w w1 w2 s (init ++ [s']) Hs Hobs).
        -- cbn. now rewrite Hlen.
        -- now constructor.
        -- exact Hs'.
      * right. exists (s :: l), w2. repeat split.
        -- exact (observe_S n id w w1 w2 s l Hs Hobs).
        -- cbn. now rewrite Hlen.
        -- now constructor.
Qed.

End PollerRuns.

(** ** These outcomes on the doubles *)

Lemma RunSnapshotList_call_by_resource_type_witness :
  RunSnapshotList (Split.cmd [("resource", "droplet"); ("region", "nyc1")] [])
    Split.account
  = (Ok tt, Split.account,
     [ApiCall CallListDroplet None; Displayed [Mock.s1] None])
  /\ RunSnapshotList (Split.cmd [("resource", "volume"); ("region", "ams3")] ["*"])
       Split.account
     = (Ok tt, Split.account,
        [ApiCall (CallListVolumeSnapshotByRegion "ams3") None;
         Displayed [Mock.s2] None])
  /\ RunSnapshotList (Split.cmd [("resource", "volume")] []) Split.account
     = (Ok tt, Split.account,
        [ApiCall CallListVolume None; Displayed [Mock.s2; Mock.s3] None])
  /\ RunSnapshotList (Split.cmd [("resource", "Droplet")] []) Split.account
     = (Ok tt, Split.account,
        [ApiCall CallList None; Displayed [Mock.s1; Mock.s2; Mock.s3] None]).
Proof.
  split; [|split; [|split]].
  - exact (proj1 (RunSnapshotList_call_by_resource_type
                    (Split.cmd [("resource", "droplet"); ("region", "nyc1")] [])
                    Split.account "droplet" "nyc1" [] eq_refl eq_refl eq_refl)
             eq_refl).
  - refine (proj1 (proj2 (RunSnapshotList_call_by_resource_type
                            (Split.cmd [("resource", "volume"); ("region", "ams3")]
                               ["*"])
                            Split.account "volume" "ams3" ["*"]
                            eq_refl eq_refl eq_refl))
              eq_refl _).
    discriminate.
  - exact (proj1 (proj2 (proj2 (RunSnapshotList_call_by_resource_type
                                  (Split.cmd [("resource", "volume")] [])
                                  Split.account "volume" "" []
                                  eq_refl eq_refl eq_refl)))
             eq_refl eq_refl).
  - refine (proj2 (proj2 (proj2 (RunSnapshotList_call_by_resource_type
                                   (Split.cmd [("resource", "Droplet")] [])
                                   Split.account "Droplet" "" []
                                   eq_refl eq_refl eq_refl)))
              _ _); discriminate.
Defined.

Lemma api_errors_pass_through_witness :
  returned (RunSnapshotList (Mock.cmd_down [("resource", "volume")] ["*"]) Mock.account)
  = Some Mock.unavailable
  /\ returned (RunSnapshotGet (Mock.cmd [] ["2"; "9"; "1"]) Mock.account)
     = Some Mock.not_found
  /\ returned (RunSnapshotDelete (Mock.cmd [("force", "true")] ["2"; "2"; "1"])
                 Mock.account)
     = Some Mock.not_found.
Proof.
  split; [|split].
  - exact (proj1 (proj2 (proj2
             (proj1 (api_errors_pass_through
                       (Mock.cmd_down [("resource", "volume")] ["*"])
                       Mock.account Mock.unavailable)
                "volume" "" ["*"] Mock.account eq_refl eq_refl eq_refl)))
             eq_refl eq_refl eq_refl).
  - refine (proj1 (proj2 (api_errors_pass_through
                            (Mock.cmd [] ["2"; "9"; "1"]) Mock.account
                            Mock.not_found))
              ["2"] "9" ["1"] [Mock.s2] Mock.account Mock.account
              eq_refl _ eq_refl).
    eapply succeed_gets_cons; [reflexivity|]. apply succeed_gets_nil.
  - refine (proj2 (proj2 (api_errors_pass_through
                            (Mock.cmd [("force", "true")] ["2"; "2"; "1"])
                            Mock.account Mock.not_found))
              ["2"] "2" ["1"] Mock.account []
              (Mock.mkWorld [Mock.s1; Mock.s3] ["n"])
              (Mock.mkWorld [Mock.s1; Mock.s3] ["n"])
              eq_refl _ _ eq_refl).
    + apply proceeds_force. reflexivity.
    + eapply succeed_deletes_cons; [reflexivity|]. apply succeed_deletes_nil.
Defined.

Lemma mutations_per_invocation_witness :
  (exists w1,
      succeed_deletes Mock.service ["2"; "1"] Mock.account w1
      /\ RunSnapshotDelete (Mock.cmd [("force", "true")] ["2"; "1"]) Mock.account
         = (Ok tt, w1, [] ++ deleted ["2"; "1"])
      /\ mutations (trace_of (RunSnapshotDelete
                                (Mock.cmd [("force", "true")] ["2"; "1"])
                                Mock.account))
         = ["2"; "1"])
  \/ (exists pre id post e w1 w2,
        ["2"; "1"] = pre ++ id :: post
        /\ succeed_deletes Mock.service pre Mock.account w1
        /\ Delete Mock.service id w1 = (Some e, w2)
        /\ RunSnapshotDelete (Mock.cmd [("force", "true")] ["2"; "1"]) Mock.account
           = (Err e, w2, [] ++ deleted pre ++ [ApiCall (CallDelete id) (Some e)])
        /\ mutations (trace_of (RunSnapshotDelete
                                  (Mock.cmd [("force", "true")] ["2"; "1"])
                                  Mock.account))
           = pre ++ [id]).
Proof.
  refine (proj1 (proj2 (proj2 (mutations_per_invocation
                                 (Mock.cmd [("force", "true")] ["2"; "1"])
                                 Mock.account)))
            Mock.account [] _ _).
  - discriminate.
  - apply proceeds_force. reflexivity.
Defined.

Example poll_run_against_accessor :
  Poller.observe (fun _ n => (n, S n)) 4 "deployment" 0 = ([0; 1; 2; 3], 4)
  /\ Poller.poll (fun _ n => (n, S n)) (fun s => (3 <=? s)%nat) 10 5 "deployment" 0
     = (Poller.Final 3, 4, Poller.waited 10 [0; 1; 2] ++ [Poller.Fetched 3]).
Proof. split; reflexivity. Qed.
